(** * Chorus workflow engine: executor and orchestration loop

    A shallow embedding of the Go workflow engine
    ([services/workflow-engine/services/executor.go], the engine file holding
    [processQueue], [executeWorkflow] and friends, and the [models] package),
    together with the properties of the engine's specification that can be
    settled on it. *)

From Stdlib Require Import ZArith String Ascii List Bool Lia PrimFloat.
From stdpp Require Import base option list gmap strings pretty infinite.

Open Scope string_scope.

(** ** Values held in [map[string]interface{}]

    Every [JSONB] map and every step [Config] of the engine is produced by
    [encoding/json], so the dynamic type of an [interface{}] value is one of
    [nil], [bool], [float64], [string], [[]interface{}] and
    [map[string]interface{}].  [float64] is IEEE 754 binary64, which is what
    the primitive floats are. *)
#[local] Unset Elimination Schemes.
Inductive jvalue : Type :=
| JNull
| JBool (b : bool)
| JNum (f : float)
| JStr (s : string)
| JArr (l : list jvalue)
| JObj (m : gmap string jvalue).
#[local] Set Elimination Schemes.

(** [models.JSONB].  A nil map reads like the empty map in Go, and every write
    to a possibly-nil map in the source is guarded by a [make], so nil and
    empty are identified. *)
Abbreviation JSONB := (gmap string jvalue).

(** [uuid.UUID]: only identity matters. *)
Abbreviation uuid := N.

(** A Go [error] is used through its nil-ness and its message only. *)
Abbreviation error := (option string).

(** ** The [models] package *)

(** [WorkflowStatus]; the table's CHECK constraint closes the set. *)
Inductive WorkflowStatus : Type :=
| WorkflowStatusPending
| WorkflowStatusRunning
| WorkflowStatusCompleted
| WorkflowStatusFailed
| WorkflowStatusCancelled
| WorkflowStatusPaused.

Definition WorkflowStatus_string (s : WorkflowStatus) : string :=
  match s with
  | WorkflowStatusPending => "pending"
  | WorkflowStatusRunning => "running"
  | WorkflowStatusCompleted => "completed"
  | WorkflowStatusFailed => "failed"
  | WorkflowStatusCancelled => "cancelled"
  | WorkflowStatusPaused => "paused"
  end.

Definition WorkflowStatus_eqb (a b : WorkflowStatus) : bool :=
  WorkflowStatus_string a =? WorkflowStatus_string b.

Inductive StepStatus : Type :=
| StepStatusPending
| StepStatusRunning
| StepStatusCompleted
| StepStatusFailed
| StepStatusSkipped.

Definition StepStatus_eqb (a b : StepStatus) : bool :=
  match a, b with
  | StepStatusPending, StepStatusPending
  | StepStatusRunning, StepStatusRunning
  | StepStatusCompleted, StepStatusCompleted
  | StepStatusFailed, StepStatusFailed
  | StepStatusSkipped, StepStatusSkipped => true
  | _, _ => false
  end.

(** [StepType] stays a string: it is decoded from the template's JSON and the
    executor has a [default] branch for anything else. *)
Abbreviation StepType := string.
Definition StepTypeAction : StepType := "action".
Definition StepTypeCondition : StepType := "condition".
Definition StepTypeParallel : StepType := "parallel".
Definition StepTypeWait : StepType := "wait".
Definition StepTypeSubflow : StepType := "subflow".

Record RetryPolicy : Type := {
  MaxRetries : Z;
  Delay : Z
}.

Record StepCondition : Type := {
  Field : string;
  Operator : string;
  Value : jvalue
}.

Record WorkflowStepDefinition : Type := {
  def_ID : string;
  def_Name : string;
  def_Type : StepType;
  def_Config : JSONB;
  def_NextSteps : list string;
  def_Conditions : list StepCondition;
  def_RetryPolicy : option RetryPolicy
}.

Record WorkflowSchema : Type := {
  Steps : list WorkflowStepDefinition
}.

Record WorkflowTemplate : Type := {
  tmpl_Name : string;
  tmpl_Schema : JSONB;
  tmpl_IsActive : bool
}.

(** A row of [workflow.instances].  The primary key is the key of the table
    (a loaded [*WorkflowInstance] is the pair of its id and its row); the
    timestamps GORM maintains by itself ([created_at], [updated_at]) are left
    out.  Times are in nanoseconds. *)
Record WorkflowInstance : Type := {
  inst_TemplateID : uuid;
  inst_Name : string;
  inst_Status : WorkflowStatus;
  inst_Context : JSONB;
  inst_Variables : JSONB;
  inst_CurrentStep : string;
  inst_StartedAt : option Z;
  inst_CompletedAt : option Z;
  inst_ErrorMessage : string
}.

(** A row of [workflow.steps], keyed in its table by its primary key. *)
Record WorkflowStep : Type := {
  step_InstanceID : uuid;
  step_StepID : string;
  step_StepType : StepType;
  step_Status : StepStatus;
  step_InputData : JSONB;
  step_OutputData : JSONB;
  step_ErrorData : JSONB;
  step_StartedAt : option Z;
  step_CompletedAt : option Z;
  step_RetryCount : Z
}.

(** [config.Config], the fields the engine reads. *)
Record Config : Type := {
  MaxConcurrentWorkflows : nat;
  WorkflowCheckInterval : Z;
  StepTimeout : Z
}.

(** ** The world the engine acts on

    The durable store (three tables), the [workflow:events] Redis channel as
    the list of messages published so far, and the wall clock read by
    [time.Now()]. Store and bus calls are taken to succeed. *)
Record Event : Type := {
  ev_type : string;
  ev_instance_id : uuid;
  ev_step_id : string;
  ev_timestamp : Z;
  ev_success : option bool;
  ev_error : option string
}.

Record World : Type := {
  templates : gmap uuid WorkflowTemplate;
  instances : gmap uuid WorkflowInstance;
  steps : gmap uuid WorkflowStep;
  bus : list Event;
  clock : Z
}.

Definition with_instances (w : World) (m : gmap uuid WorkflowInstance) : World :=
  {| templates := templates w; instances := m; steps := steps w;
     bus := bus w; clock := clock w |}.

Definition with_steps (w : World) (m : gmap uuid WorkflowStep) : World :=
  {| templates := templates w; instances := instances w; steps := m;
     bus := bus w; clock := clock w |}.

Definition publish (w : World) (ev : Event) : World :=
  {| templates := templates w; instances := instances w; steps := steps w;
     bus := bus w ++ [ev]; clock := clock w |}.

(** [db.Save(step)]: write the row under its primary key. *)
Definition Save (w : World) (k : uuid) (step : WorkflowStep) : World :=
  with_steps w (<[k := step]> (steps w)).

(** [db.Model(&WorkflowInstance{}).Where("id = ?", id).Update(s)]: the
    row is rewritten when it exists, and nothing happens otherwise. *)
Definition update_instance (w : World) (id : uuid)
    (f : WorkflowInstance → WorkflowInstance) : World :=
  with_instances w (alter f id (instances w)).

(** ** [StepResult] *)
Record StepResult : Type := {
  Success : bool;
  Data : JSONB;
  Error : string
}.

(** What an [execute...Step] method returns: [(result, nil)] or
    [(nil, err)]. *)
Inductive returned (A : Type) : Type :=
| Val (a : A)
| Err (e : string).
Arguments Val {A} a.
Arguments Err {A} e.

(** ** The executor ([executor.go])

    Calls to the logger and to [time.Sleep] change nothing in the world and
    are left out; what remains of a sleep is that the call returns. *)

(** [strings.Contains]: [substr] occurs in [s] (the empty string occurs in
    every string). *)
Fixpoint Contains (s substr : string) : bool :=
  if String.prefix substr s then true
  else match s with
       | EmptyString => false
       | String _ s' => Contains s' substr
       end.

(** Go's [==] on two [interface{}] values: false when the dynamic types
    differ, the comparison of the values when they are of the same comparable
    type, and a run-time panic ([None]) when they are both slices or both
    maps. *)
Definition interface_eq (a b : jvalue) : option bool :=
  match a, b with
  | JNull, JNull => Some true
  | JBool x, JBool y => Some (Bool.eqb x y)
  | JNum x, JNum y => Some (PrimFloat.eqb x y)
  | JStr x, JStr y => Some (x =? y)
  | JArr _, JArr _ => None
  | JObj _, JObj _ => None
  | _, _ => Some false
  end.

(** [evaluateCondition]; [None] is the run-time panic of an [==] or [!=] on
    uncomparable operands. *)
Definition evaluateCondition (condition : StepCondition) (variables : JSONB)
    : option bool :=
  match variables !! Field condition with
  | None => Some false
  | Some value =>
    let op := Operator condition in
    if (op =? "eq") || (op =? "equals") then
      interface_eq value (Value condition)
    else if (op =? "ne") || (op =? "not_equals") then
      negb <$> interface_eq value (Value condition)
    else if (op =? "gt") || (op =? "greater_than") then
      match value, Value condition with
      | JNum vFloat, JNum cFloat => Some (PrimFloat.ltb cFloat vFloat)
      | _, _ => Some false
      end
    else if (op =? "lt") || (op =? "less_than") then
      match value, Value condition with
      | JNum vFloat, JNum cFloat => Some (PrimFloat.ltb vFloat cFloat)
      | _, _ => Some false
      end
    else if op =? "contains" then
      match value, Value condition with
      | JStr vStr, JStr cStr => Some (Contains vStr cStr)
      | _, _ => Some false
      end
    else Some false
  end.

(** The [for ... range conditions] loop of [executeConditionStep]: it returns
    at the first predicate that is false. *)
Fixpoint evaluateAll (conditions : list StepCondition) (variables : JSONB)
    : option StepResult :=
  match conditions with
  | [] =>
    Some {| Success := true;
            Data := {[ "reason" := JStr "all conditions met" ]};
            Error := "" |}
  | condition :: rest =>
    match evaluateCondition condition variables with
    | None => None
    | Some false =>
      Some {| Success := false;
              Data := {[ "reason" := JStr "condition not met" ]};
              Error := "" |}
    | Some true => evaluateAll rest variables
    end
  end.

(** [executeConditionStep]; its Go error is always nil. *)
Definition executeConditionStep (instance : WorkflowInstance)
    (stepDef : WorkflowStepDefinition) : option (returned StepResult) :=
  let conditions := def_Conditions stepDef in
  if (length conditions =? 0)%nat then
    Some (Val {| Success := false; Data := ∅; Error := "no conditions defined" |})
  else
    Val <$> evaluateAll conditions (inst_Variables instance).

(** [executeParallelStep]: every sub-task is reported completed. *)
Definition executeParallelStep (stepDef : WorkflowStepDefinition)
    : returned StepResult :=
  match def_Config stepDef !! "parallel_steps" with
  | Some (JArr parallelSteps) =>
    let results : JSONB :=
      foldl (λ (results : JSONB) '(i, parallelStepData),
               <["parallel_" +:+ pretty (i : nat) :=
                   JObj {[ "status" := JStr "completed";
                           "data" := parallelStepData ]}]> results)
            ∅ (imap (λ i d, (i, d)) parallelSteps) in
    let allSuccess := true in
    Val {| Success := allSuccess; Data := results; Error := "" |}
  | _ => Err "parallel_steps not defined"
  end.

(** [executeWaitStep].  Both kinds of wait sleep in the calling worker and
    then report success; the sleeps leave the world as it is. *)
Definition executeWaitStep (stepDef : WorkflowStepDefinition)
    : returned StepResult :=
  match def_Config stepDef !! "wait_type" with
  | Some (JStr waitType) =>
    if waitType =? "duration" then
      match def_Config stepDef !! "duration" with
      | Some (JNum durationSec) =>
        Val {| Success := true; Data := {[ "waited" := JNum durationSec ]};
               Error := "" |}
      | _ => Err "duration not specified for duration wait"
      end
    else if waitType =? "event" then
      match def_Config stepDef !! "event" with
      | Some (JStr eventName) =>
        Val {| Success := true; Data := {[ "event" := JStr eventName ]};
               Error := "" |}
      | _ => Err "event not specified for event wait"
      end
    else Err ("unsupported wait type: " +:+ waitType)
  | _ => Err "wait_type not specified"
  end.

(** [executeSubflowStep]: simulated, no child instance is created. *)
Definition executeSubflowStep (stepDef : WorkflowStepDefinition)
    : returned StepResult :=
  match def_Config stepDef !! "subflow_id" with
  | Some (JStr subflowID) =>
    Val {| Success := true;
           Data := {[ "subflow_id" := JStr subflowID;
                      "status" := JStr "completed" ]};
           Error := "" |}
  | _ => Err "subflow_id not specified"
  end.

(** [cfg[key].(string)] with the zero value when the assertion fails. *)
Definition string_or (cfg : JSONB) (key : string) (default : string) : string :=
  match cfg !! key with
  | Some (JStr s) => s
  | _ => default
  end.

Definition executeHTTPRequest (stepDef : WorkflowStepDefinition)
    : returned StepResult :=
  match def_Config stepDef !! "url" with
  | Some (JStr url) =>
    let method := string_or (def_Config stepDef) "method" "GET" in
    Val {| Success := true;
           Data := {[ "method" := JStr method;
                      "url" := JStr url;
                      "status_code" := JNum 200%float;
                      "response" := JStr "OK" ]};
           Error := "" |}
  | _ => Err "url not specified for HTTP request"
  end.

Definition executeSendEmail (stepDef : WorkflowStepDefinition)
    : returned StepResult :=
  match def_Config stepDef !! "to" with
  | Some (JStr to) =>
    let subject := string_or (def_Config stepDef) "subject" "" in
    Val {| Success := true;
           Data := {[ "to" := JStr to;
                      "subject" := JStr subject;
                      "sent" := JBool true ]};
           Error := "" |}
  | _ => Err "to address not specified for email"
  end.

Definition executeLogMessage (stepDef : WorkflowStepDefinition)
    : returned StepResult :=
  match def_Config stepDef !! "message" with
  | Some (JStr message) =>
    let level := string_or (def_Config stepDef) "level" "info" in
    Val {| Success := true;
           Data := {[ "message" := JStr message;
                      "level" := JStr level;
                      "logged" := JBool true ]};
           Error := "" |}
  | _ => Err "message not specified for log action"
  end.

Definition set_Variables (i : WorkflowInstance) (v : JSONB) : WorkflowInstance :=
  {| inst_TemplateID := inst_TemplateID i; inst_Name := inst_Name i;
     inst_Status := inst_Status i; inst_Context := inst_Context i;
     inst_Variables := v; inst_CurrentStep := inst_CurrentStep i;
     inst_StartedAt := inst_StartedAt i; inst_CompletedAt := inst_CompletedAt i;
     inst_ErrorMessage := inst_ErrorMessage i |}.

(** [executeUpdateVariables]: the one action that changes the loaded instance
    (its [Variables] map, in place) and its row. *)
Definition executeUpdateVariables (w : World) (instanceID : uuid)
    (instance : WorkflowInstance) (stepDef : WorkflowStepDefinition)
    : World * WorkflowInstance * returned StepResult :=
  match def_Config stepDef !! "updates" with
  | Some (JObj updates) =>
    let variables := updates ∪ inst_Variables instance in
    let instance := set_Variables instance variables in
    let w := update_instance w instanceID (λ row, set_Variables row variables) in
    (w, instance,
     Val {| Success := true;
            Data := {[ "updated_variables" := JObj updates ]};
            Error := "" |})
  | _ => (w, instance, Err "updates not specified for update variables action")
  end.

Definition executeActionStep (w : World) (instanceID : uuid)
    (instance : WorkflowInstance) (stepDef : WorkflowStepDefinition)
    : World * WorkflowInstance * returned StepResult :=
  match def_Config stepDef !! "action" with
  | Some (JStr action) =>
    if action =? "http_request" then (w, instance, executeHTTPRequest stepDef)
    else if action =? "send_email" then (w, instance, executeSendEmail stepDef)
    else if action =? "log_message" then (w, instance, executeLogMessage stepDef)
    else if action =? "update_variables" then
      executeUpdateVariables w instanceID instance stepDef
    else (w, instance, Err ("unsupported action: " +:+ action))
  | _ => (w, instance, Err "action not specified in step config")
  end.

(** *** Step records *)

(** [Where(...).First(&step)]: of the rows that match, the one with the
    least primary key. *)
Definition first_row (rows : list (uuid * WorkflowStep))
    : option (uuid * WorkflowStep) :=
  foldr (λ kr acc,
           match acc with
           | None => Some kr
           | Some kr' => if (kr.1 <? kr'.1)%N then Some kr else acc
           end) None rows.

(** [Where(...).Find(&steps)]: the rows that match. *)
Definition find_steps (P : WorkflowStep → bool) (w : World)
    : list (uuid * WorkflowStep) :=
  List.filter (λ kr, P kr.2) (map_to_list (steps w)).

Definition is_step_of (instanceID : uuid) (stepID : string)
    (row : WorkflowStep) : bool :=
  (step_InstanceID row =? instanceID)%N && (step_StepID row =? stepID).

(** [createOrUpdateStep]: the record of this step for this instance, created
    [pending] when there is none.  The new row gets a primary key that is not
    in the table. *)
Definition createOrUpdateStep (w : World) (instanceID : uuid)
    (stepDef : WorkflowStepDefinition) : World * (uuid * WorkflowStep) :=
  match first_row (find_steps (is_step_of instanceID (def_ID stepDef)) w) with
  | Some kr => (w, kr)
  | None =>
    let step :=
      {| step_InstanceID := instanceID;
         step_StepID := def_ID stepDef;
         step_StepType := def_Type stepDef;
         step_Status := StepStatusPending;
         step_InputData := def_Config stepDef;
         step_OutputData := ∅;
         step_ErrorData := ∅;
         step_StartedAt := None;
         step_CompletedAt := None;
         step_RetryCount := 0 |} in
    let k := fresh (dom (steps w)) in
    (Save w k step, (k, step))
  end.

Definition set_step (s : WorkflowStep) (status : StepStatus)
    (output error : JSONB) (started completed : option Z) (retries : Z)
    : WorkflowStep :=
  {| step_InstanceID := step_InstanceID s; step_StepID := step_StepID s;
     step_StepType := step_StepType s; step_Status := status;
     step_InputData := step_InputData s; step_OutputData := output;
     step_ErrorData := error; step_StartedAt := started;
     step_CompletedAt := completed; step_RetryCount := retries |}.

Definition second : Z := 1000000000.

(** Go's [int] is 64 bits wide here; [int_wrap] is its wrap-around. *)
Definition int_wrap (z : Z) : Z := ((z + 2 ^ 63) mod 2 ^ 64 - 2 ^ 63)%Z.

(** [publishStepEvent]. *)
Definition publishStepEvent (w : World) (eventType : string)
    (instanceID : uuid) (stepID : string) (result : option StepResult) : World :=
  publish w
    {| ev_type := eventType;
       ev_instance_id := instanceID;
       ev_step_id := stepID;
       ev_timestamp := (clock w / second)%Z;
       ev_success := Success <$> result;
       ev_error :=
         match result with
         | Some r => if Error r =? "" then None else Some (Error r)
         | None => None
         end |}.

(** The outcome of a call that may die in a run-time panic: the world at the
    return together with the returned values, or the world at the panic. *)
Inductive exec (A : Type) : Type :=
| Ok (w : World) (a : A)
| Crash (w : World).
Arguments Ok {A} w a.
Arguments Crash {A} w.

Definition exec_world {A} (x : exec A) : World :=
  match x with
  | Ok w _ => w
  | Crash w => w
  end.

(** The [switch stepDef.Type] of [ExecuteStep]; [None] is a panic. *)
Definition executeByType (w : World) (instanceID : uuid)
    (instance : WorkflowInstance) (stepDef : WorkflowStepDefinition)
    : option (World * WorkflowInstance * returned StepResult) :=
  let type := def_Type stepDef in
  if type =? StepTypeAction then
    Some (executeActionStep w instanceID instance stepDef)
  else if type =? StepTypeCondition then
    (λ r, (w, instance, r)) <$> executeConditionStep instance stepDef
  else if type =? StepTypeParallel then
    Some (w, instance, executeParallelStep stepDef)
  else if type =? StepTypeWait then
    Some (w, instance, executeWaitStep stepDef)
  else if type =? StepTypeSubflow then
    Some (w, instance, executeSubflowStep stepDef)
  else Some (w, instance, Err ("unsupported step type: " +:+ type)).

(** [ExecuteStep].  It returns the (possibly updated) loaded instance, the
    step result and the Go error.  The JSON round trip that copies
    [result.Data] into [step.OutputData] is the identity on values that came
    out of JSON. *)
Definition ExecuteStep (w : World) (instanceID : uuid)
    (instance : WorkflowInstance) (stepDef : WorkflowStepDefinition)
    : exec (WorkflowInstance * StepResult * error) :=
  let '(w, (k, step)) := createOrUpdateStep w instanceID stepDef in
  let now := clock w in
  let step := set_step step StepStatusRunning (step_OutputData step)
                (step_ErrorData step) (Some now) (step_CompletedAt step)
                (step_RetryCount step) in
  let w := Save w k step in
  match executeByType w instanceID instance stepDef with
  | None => Crash w
  | Some (w, instance, r) =>
    let completedAt := clock w in
    let '(step, result, err) :=
      match r with
      | Err e =>
        (set_step step StepStatusFailed (step_OutputData step)
           {[ "error" := JStr e ]} (step_StartedAt step) (Some completedAt)
           (step_RetryCount step),
         {| Success := false; Data := ∅; Error := e |},
         Some e)
      | Val result =>
        (set_step step StepStatusCompleted (Data result)
           (step_ErrorData step) (step_StartedAt step) (Some completedAt)
           (step_RetryCount step),
         result,
         None)
      end in
    let w := Save w k step in
    let w := publishStepEvent w "step_completed" instanceID (def_ID stepDef)
               (Some result) in
    Ok w (instance, result, err)
  end.

(** [HandleStepTimeout].  The retry policy is a local that is never
    assigned. *)
Definition HandleStepTimeout (w : World) (k : uuid) (step : WorkflowStep)
    : World :=
  let retryPolicy : option RetryPolicy := None in
  if match retryPolicy with
     | Some p => (step_RetryCount step <? MaxRetries p)%Z
     | None => false
     end
  then
    Save w k (set_step step StepStatusPending (step_OutputData step) ∅
                None None (int_wrap (step_RetryCount step + 1)))
  else
    let now := clock w in
    Save w k (set_step step StepStatusFailed (step_OutputData step)
                {[ "error" := JStr "step timed out" ]}
                (step_StartedAt step) (Some now) (step_RetryCount step)).

(** ** The engine *)

(** What runs beside a worker: at the head of the [k]-th turn of the
    orchestration loop the other actors (the HTTP handlers that pause or
    cancel, the periodic sweep, the clock) have turned the world into
    [act k w], and [done k] tells whether the engine's context is cancelled
    when the loop reaches its [select] at the end of that turn. *)
Record Env : Type := {
  act : nat → World → World;
  done : nat → bool
}.

(** Nobody else touches the world and the engine is not shut down. *)
Definition quiet : Env := {| act := λ _ w, w; done := λ _, false |}.

Fixpoint findStepDefinition (steps : list WorkflowStepDefinition)
    (stepID : string) : option WorkflowStepDefinition :=
  match steps with
  | [] => None
  | step :: rest =>
    if def_ID step =? stepID then Some step else findStepDefinition rest stepID
  end.

(** [determineNextStep]; the empty string is the end of the workflow.  The
    indexings are guarded by the length tests, as in the source. *)
Definition determineNextStep (stepDef : WorkflowStepDefinition)
    (result : StepResult) : string * error :=
  let NextSteps := def_NextSteps stepDef in
  if (length NextSteps =? 0)%nat then ("", None)
  else if (length NextSteps =? 1)%nat then (nth 0 NextSteps "", None)
  else if (def_Type stepDef =? StepTypeCondition)
          && Success result && (0 <? length NextSteps)%nat
  then (nth 0 NextSteps "", None)
  else if (def_Type stepDef =? StepTypeCondition)
          && negb (Success result) && (1 <? length NextSteps)%nat
  then (nth 1 NextSteps "", None)
  else (nth 0 NextSteps "", None).

Definition checkInstanceStatus (w : World) (instanceID : uuid) : error :=
  match instances w !! instanceID with
  | None => Some "record not found"
  | Some instance =>
    if negb (WorkflowStatus_eqb (inst_Status instance) WorkflowStatusRunning)
    then Some ("workflow instance status changed to "
               +:+ WorkflowStatus_string (inst_Status instance))
    else None
  end.

Definition set_instance (i : WorkflowInstance) (status : WorkflowStatus)
    (currentStep : string) (completed : option Z) (errorMessage : string)
    : WorkflowInstance :=
  {| inst_TemplateID := inst_TemplateID i; inst_Name := inst_Name i;
     inst_Status := status; inst_Context := inst_Context i;
     inst_Variables := inst_Variables i; inst_CurrentStep := currentStep;
     inst_StartedAt := inst_StartedAt i; inst_CompletedAt := completed;
     inst_ErrorMessage := errorMessage |}.

Definition updateInstanceCurrentStep (w : World) (instanceID : uuid)
    (stepID : string) : World :=
  update_instance w instanceID
    (λ row, set_instance row (inst_Status row) stepID (inst_CompletedAt row)
              (inst_ErrorMessage row)).

Definition completeInstance (w : World) (instanceID : uuid) : World :=
  let now := clock w in
  update_instance w instanceID
    (λ row, set_instance row WorkflowStatusCompleted (inst_CurrentStep row)
              (Some now) (inst_ErrorMessage row)).

Definition failInstance (w : World) (instanceID : uuid) (errorMsg : string)
    : World :=
  let now := clock w in
  update_instance w instanceID
    (λ row, set_instance row WorkflowStatusFailed (inst_CurrentStep row)
              (Some now) errorMsg).

(** How a run of the orchestration loop ends: it returned, it died in a
    panic, or it is still looping after the turns that were observed. *)
Inductive run (A : Type) : Type :=
| Returned (w : World) (a : A)
| Panicked (w : World)
| Looping (w : World).
Arguments Returned {A} w a.
Arguments Panicked {A} w.
Arguments Looping {A} w.

Definition world_of {A} (r : run A) : World :=
  match r with
  | Returned w _ => w
  | Panicked w => w
  | Looping w => w
  end.

(** The [for] loop of [executeWorkflow], observed for [turns] turns; [k]
    counts the turns already made. *)
Fixpoint workflowLoop (env : Env) (turns : nat) (k : nat) (w : World)
    (instanceID : uuid) (instance : WorkflowInstance) (schema : WorkflowSchema)
    (currentStepID : string) : run error :=
  match turns with
  | O => Looping w
  | S turns =>
    let w := act env k w in
    match checkInstanceStatus w instanceID with
    | Some err => Returned w (Some err)
    | None =>
      match findStepDefinition (Steps schema) currentStepID with
      | None =>
        Returned w (Some ("step definition not found: " +:+ currentStepID))
      | Some stepDef =>
        match ExecuteStep w instanceID instance stepDef with
        | Crash w => Panicked w
        | Ok w (instance, stepResult, Some err) =>
          Returned w (Some ("step execution failed: " +:+ err))
        | Ok w (instance, stepResult, None) =>
          let w := updateInstanceCurrentStep w instanceID currentStepID in
          match determineNextStep stepDef stepResult with
          | (_, Some err) =>
            Returned w (Some ("failed to determine next step: " +:+ err))
          | (nextStepID, None) =>
            if nextStepID =? "" then
              Returned (completeInstance w instanceID) None
            else if done env k then
              Returned w (Some "workflow engine shutting down")
            else
              workflowLoop env turns (S k) w instanceID instance schema
                nextStepID
          end
        end
      end
    end
  end.

(** [executeWorkflow]. *)
Definition executeWorkflow (env : Env) (turns : nat) (w : World)
    (instanceID : uuid) (instance : WorkflowInstance) (schema : WorkflowSchema)
    : run error :=
  match Steps schema with
  | [] => Returned (completeInstance w instanceID) None
  | first :: _ =>
    let currentStepID :=
      if inst_CurrentStep instance =? "" then def_ID first
      else inst_CurrentStep instance in
    workflowLoop env turns 0 w instanceID instance schema currentStepID
  end.

(** The schema of the template that [Preload("Template")] attaches to a
    loaded instance; the zero template has a nil schema. *)
Definition templateSchema (w : World) (instance : WorkflowInstance) : JSONB :=
  match templates w !! inst_TemplateID instance with
  | Some template => tmpl_Schema template
  | None => ∅
  end.

Section Engine.

(** [parseSchema] re-encodes the template's [JSONB] schema and decodes it into
    a [WorkflowSchema]; the decoder of [encoding/json] is taken as given. *)
Variable parseSchema : JSONB → returned WorkflowSchema.

Variable config : Config.

(** [processInstance], the body between marking the instance as running in
    the engine and unmarking it. *)
Definition processInstance (env : Env) (turns : nat) (w : World)
    (instanceID : uuid) : run unit :=
  match instances w !! instanceID with
  | None => Returned w tt
  | Some instance =>
    if negb (WorkflowStatus_eqb (inst_Status instance) WorkflowStatusRunning)
    then Returned w tt
    else
      match parseSchema (templateSchema w instance) with
      | Err err =>
        Returned (failInstance w instanceID ("Invalid workflow schema: " +:+ err)) tt
      | Val schema =>
        match executeWorkflow env turns w instanceID instance schema with
        | Returned w (Some err) => Returned (failInstance w instanceID err) tt
        | Returned w None => Returned w tt
        | Panicked w => Panicked w
        | Looping w => Looping w
        end
      end
  end.

(** [checkTimeouts]: every step that is [running] and was started before
    [now - StepTimeout] is handed to the executor's timeout handler. *)
Definition timed_out (timeout : Z) (row : WorkflowStep) : bool :=
  StepStatus_eqb (step_Status row) StepStatusRunning
  && match step_StartedAt row with
     | Some t => (t <? timeout)%Z
     | None => false
     end.

Definition checkTimeouts (w : World) : World :=
  let timeout := (clock w - StepTimeout config * second)%Z in
  let steps := find_steps (timed_out timeout) w in
  foldl (λ w '(k, step), HandleStepTimeout w k step) w steps.

End Engine.

(** ** The handlers that pause and cancel ([handlers/instance.go])

    [PauseInstance] rewrites a [running] instance as [paused];
    [CancelInstance] rewrites an instance that is not yet [completed],
    [failed] or [cancelled] as [cancelled]. *)
Definition PauseInstance (w : World) (instanceID : uuid) : World :=
  match instances w !! instanceID with
  | Some instance =>
    if negb (WorkflowStatus_eqb (inst_Status instance) WorkflowStatusRunning)
    then w
    else update_instance w instanceID
           (λ _, set_instance instance WorkflowStatusPaused
                   (inst_CurrentStep instance) (inst_CompletedAt instance)
                   (inst_ErrorMessage instance))
  | None => w
  end.

Definition CancelInstance (w : World) (instanceID : uuid) : World :=
  match instances w !! instanceID with
  | Some instance =>
    if WorkflowStatus_eqb (inst_Status instance) WorkflowStatusCompleted
       || WorkflowStatus_eqb (inst_Status instance) WorkflowStatusFailed
       || WorkflowStatus_eqb (inst_Status instance) WorkflowStatusCancelled
    then w
    else update_instance w instanceID
           (λ _, set_instance instance WorkflowStatusCancelled
                   (inst_CurrentStep instance) (Some (clock w))
                   (inst_ErrorMessage instance))
  | None => w
  end.

(** An environment in which [handler] is called on [instanceID] while the
    worker is between its turns [n - 1] and [n], and nothing else happens. *)
Definition interrupted (handler : World → uuid → World) (n : nat)
    (instanceID : uuid) : Env :=
  {| act := λ k w, if (k =? n)%nat then handler w instanceID else w;
     done := λ _, false |}.

(** ** The dispatcher and its workers

    The goroutines of the engine that share the queue and the [instances]
    map, as an interleaving of their atomic actions: a send on the buffered
    channel, a receive by [processQueue] with its [Load] test and its [go]
    statement, the [Store] that is the first action of a [processInstance]
    goroutine, and the deferred [Delete] that is its last. *)
Module Scheduler.

(** Where a [processInstance] goroutine stands: started by the [go]
    statement and not yet at its [Store]; past its [Store], working on the
    instance; returned. *)
Inductive pc : Type :=
| Spawned
| Marked
| Exited.

Record state : Type := {
  queue : list uuid;
  instances : gset uuid;
  workers : list (uuid * pc)
}.

Definition init : state := {| queue := []; instances := ∅; workers := [] |}.

(** [QueueInstance]: a send that does not block. *)
Definition QueueInstance (capacity : nat) (s : state) (instanceID : uuid)
    : state * error :=
  if (length (queue s) <? capacity)%nat then
    ({| queue := queue s ++ [instanceID]; instances := instances s;
        workers := workers s |}, None)
  else (s, Some "workflow queue is full").

(** [handleEvent]: a [step_completed] message queues its instance again. *)
Definition handleEvent (capacity : nat) (s : state) (event : Event) : state :=
  if ev_type event =? "step_completed" then
    (QueueInstance capacity s (ev_instance_id event)).1
  else s.

(** One turn of [processQueue]: it is enabled when the queue holds an id. *)
Definition processQueue (s : state) : option state :=
  match queue s with
  | [] => None
  | instanceID :: rest =>
    if decide (instanceID ∈ instances s) then
      Some {| queue := rest; instances := instances s; workers := workers s |}
    else
      Some {| queue := rest; instances := instances s;
              workers := workers s ++ [(instanceID, Spawned)] |}
  end.

(** The [Store] of the [i]-th goroutine. *)
Definition processInstance_Store (s : state) (i : nat) : option state :=
  match workers s !! i with
  | Some (instanceID, Spawned) =>
    Some {| queue := queue s; instances := {[instanceID]} ∪ instances s;
            workers := <[i := (instanceID, Marked)]> (workers s) |}
  | _ => None
  end.

(** The deferred [Delete] of the [i]-th goroutine, at its return. *)
Definition processInstance_Delete (s : state) (i : nat) : option state :=
  match workers s !! i with
  | Some (instanceID, Marked) =>
    Some {| queue := queue s; instances := instances s ∖ {[instanceID]};
            workers := <[i := (instanceID, Exited)]> (workers s) |}
  | _ => None
  end.

Inductive action : Type :=
| Enqueue (instanceID : uuid)
| Deliver (event : Event)
| Receive
| Store (i : nat)
| Delete (i : nat).

Definition step (capacity : nat) (s : state) (a : action) : option state :=
  match a with
  | Enqueue instanceID => Some (QueueInstance capacity s instanceID).1
  | Deliver event => Some (handleEvent capacity s event)
  | Receive => processQueue s
  | Store i => processInstance_Store s i
  | Delete i => processInstance_Delete s i
  end.

(** A schedule is a list of actions, each enabled in its turn. *)
Fixpoint schedule (capacity : nat) (s : state) (l : list action) : option state :=
  match l with
  | [] => Some s
  | a :: l =>
    match step capacity s a with
    | Some s => schedule capacity s l
    | None => None
    end
  end.

(** The [processInstance] goroutines for [instanceID] that have not
    returned. *)
Definition executing (instanceID : uuid) (s : state) : nat :=
  length (List.filter
            (λ '(id, p), (id =? instanceID)%N
                         && match p with Exited => false | _ => true end)
            (workers s)).

End Scheduler.

(** ** The sweep for pending workflows *)

Definition pending_instances (w : World) : list (uuid * WorkflowInstance) :=
  List.filter
    (λ kr, WorkflowStatus_eqb (inst_Status kr.2) WorkflowStatusPending)
    (map_to_list (instances w)).

(** [checkPendingWorkflows]: at most ten of the [pending] instances, as the
    store returns them, are queued; a send that fails is logged and
    forgotten. *)
Definition checkPendingWorkflows (capacity : nat) (w : World)
    (s : Scheduler.state) : Scheduler.state :=
  foldl (λ s '(instanceID, _), (Scheduler.QueueInstance capacity s instanceID).1)
    s (take 10 (pending_instances w)).

(** ** The other handlers of [handlers/instance.go]

    A handler is given the id it has parsed from the path and the request it
    has bound, and answers with an HTTP status. *)
Definition StatusOK : nat := 200.
Definition StatusCreated : nat := 201.
Definition StatusBadRequest : nat := 400.
Definition StatusNotFound : nat := 404.
Definition StatusConflict : nat := 409.
Definition StatusInternalServerError : nat := 500.

Definition set_started (i : WorkflowInstance) (status : WorkflowStatus)
    (started : option Z) : WorkflowInstance :=
  {| inst_TemplateID := inst_TemplateID i; inst_Name := inst_Name i;
     inst_Status := status; inst_Context := inst_Context i;
     inst_Variables := inst_Variables i; inst_CurrentStep := inst_CurrentStep i;
     inst_StartedAt := started; inst_CompletedAt := inst_CompletedAt i;
     inst_ErrorMessage := inst_ErrorMessage i |}.

(** [StartInstance]: the row is saved as [running] before the id is queued,
    and stays so when the queue is full. *)
Definition StartInstance (capacity : nat) (w : World) (s : Scheduler.state)
    (instanceID : uuid) : nat * World * Scheduler.state :=
  match instances w !! instanceID with
  | None => (StatusNotFound, w, s)
  | Some instance =>
    if negb (WorkflowStatus_eqb (inst_Status instance) WorkflowStatusPending)
       && negb (WorkflowStatus_eqb (inst_Status instance) WorkflowStatusPaused)
    then (StatusBadRequest, w, s)
    else
      let now := clock w in
      let instance := set_started instance WorkflowStatusRunning (Some now) in
      let w := update_instance w instanceID (λ _, instance) in
      match Scheduler.QueueInstance capacity s instanceID with
      | (_, Some _) => (StatusInternalServerError, w, s)
      | (s, None) => (StatusOK, w, s)
      end
  end.

(** [ResumeInstance]. *)
Definition ResumeInstance (capacity : nat) (w : World) (s : Scheduler.state)
    (instanceID : uuid) : nat * World * Scheduler.state :=
  match instances w !! instanceID with
  | None => (StatusNotFound, w, s)
  | Some instance =>
    if negb (WorkflowStatus_eqb (inst_Status instance) WorkflowStatusPaused)
    then (StatusBadRequest, w, s)
    else
      let instance :=
        set_started instance WorkflowStatusRunning (inst_StartedAt instance) in
      let w := update_instance w instanceID (λ _, instance) in
      match Scheduler.QueueInstance capacity s instanceID with
      | (_, Some _) => (StatusInternalServerError, w, s)
      | (s, None) => (StatusOK, w, s)
      end
  end.

(** [models.CreateInstanceRequest], once bound. *)
Record CreateInstanceRequest : Type := {
  req_TemplateID : uuid;
  req_Name : string;
  req_Variables : JSONB;
  req_Context : JSONB
}.

(** [CreateInstance]: a [pending] row under a new primary key, for a
    template that exists and is active.  [userID] is what the context holds
    under "userID" when it is a string; the type assertion on it panics
    otherwise, and the recovery middleware answers 500.  The row does not
    keep the creator. *)
Definition CreateInstance (w : World) (userID : option string)
    (req : CreateInstanceRequest) : nat * World :=
  match templates w !! req_TemplateID req with
  | Some template =>
    if tmpl_IsActive template then
      match userID with
      | None => (StatusInternalServerError, w)
      | Some _ =>
        let instance :=
          {| inst_TemplateID := req_TemplateID req; inst_Name := req_Name req;
             inst_Status := WorkflowStatusPending;
             inst_Context := req_Context req;
             inst_Variables := req_Variables req; inst_CurrentStep := "";
             inst_StartedAt := None; inst_CompletedAt := None;
             inst_ErrorMessage := "" |} in
        let instanceID := fresh (dom (instances w)) in
        (StatusCreated,
         with_instances w (<[instanceID := instance]> (instances w)))
      end
    else (StatusNotFound, w)
  | None => (StatusNotFound, w)
  end.

(** ** The template handlers *)

Definition with_templates (w : World) (m : gmap uuid WorkflowTemplate) : World :=
  {| templates := m; instances := instances w; steps := steps w;
     bus := bus w; clock := clock w |}.

(** The instances a template cannot be deleted under: those of the template
    that are [pending], [running] or [paused]. *)
Definition active_instances (w : World) (templateID : uuid)
    : list (uuid * WorkflowInstance) :=
  List.filter
    (λ kr, (inst_TemplateID kr.2 =? templateID)%N
           && (WorkflowStatus_eqb (inst_Status kr.2) WorkflowStatusPending
               || WorkflowStatus_eqb (inst_Status kr.2) WorkflowStatusRunning
               || WorkflowStatus_eqb (inst_Status kr.2) WorkflowStatusPaused))
    (map_to_list (instances w)).

(** [DeleteTemplate]: a soft delete. *)
Definition DeleteTemplate (w : World) (templateID : uuid) : nat * World :=
  match templates w !! templateID with
  | None => (StatusNotFound, w)
  | Some template =>
    let instanceCount := length (active_instances w templateID) in
    if (0 <? instanceCount)%nat then (StatusConflict, w)
    else
      let template :=
        {| tmpl_Name := tmpl_Name template; tmpl_Schema := tmpl_Schema template;
           tmpl_IsActive := false |} in
      (StatusOK, with_templates w (<[templateID := template]> (templates w)))
  end.

(** The loop of [validateWorkflowSchema] over the steps: an element that is
    not an object is skipped, and the function returns at the first object
    that lacks an id or a type. *)
Fixpoint validateSteps (stepsSlice : list jvalue) : error :=
  match stepsSlice with
  | [] => None
  | JObj stepMap :: rest =>
    match stepMap !! "id" with
    | None => None
    | Some _ =>
      match stepMap !! "type" with
      | None => None
      | Some _ => validateSteps rest
      end
    end
  | _ :: rest => validateSteps rest
  end.

(** [validateWorkflowSchema]. *)
Definition validateWorkflowSchema (schema : JSONB) : error :=
  match schema !! "steps" with
  | None => None
  | Some (JArr stepsSlice) => validateSteps stepsSlice
  | Some _ => None
  end.

(** ** Pagination ([ListInstances], [ListTemplates])

    [rows] is the answer of the filtered query in its order
    ([created_at DESC]); [page] and [pageSize] are what [strconv.Atoi] made
    of the query parameters (0 when they do not parse). *)
Record ListResponse (A : Type) : Type := {
  resp_Data : list A;
  resp_Total : Z;
  resp_Page : Z;
  resp_PageSize : Z;
  resp_TotalPages : Z
}.
Arguments resp_Data {A} _.
Arguments resp_Total {A} _.
Arguments resp_Page {A} _.
Arguments resp_PageSize {A} _.
Arguments resp_TotalPages {A} _.

(** An offset that is not positive puts no OFFSET in the query. *)
Definition ListPage {A : Type} (rows : list A) (page pageSize : Z)
    : ListResponse A :=
  let page := if (page <? 1)%Z then 1%Z else page in
  let pageSize :=
    if (pageSize <? 1)%Z || (100 <? pageSize)%Z then 20%Z else pageSize in
  let total := Z.of_nat (length rows) in
  let offset := int_wrap ((page - 1) * pageSize) in
  let data := take (Z.to_nat pageSize) (drop (Z.to_nat offset) rows) in
  let totalPages := int_wrap (Z.quot (int_wrap (total + pageSize - 1)) pageSize) in
  {| resp_Data := data; resp_Total := total; resp_Page := page;
     resp_PageSize := pageSize; resp_TotalPages := totalPages |}.

(** ** The configuration ([config.LoadConfig])

    The environment is the map of the variables that are set; [os.Getenv]
    yields the empty string for the others. *)
Definition Getenv (env : gmap string string) (key : string) : string :=
  default "" (env !! key).

Definition getEnv (env : gmap string string) (key defaultValue : string)
    : string :=
  let value := Getenv env key in
  if negb (value =? "") then value else defaultValue.

(** [getEnvAsInt] knows four numerals. *)
Definition getEnvAsInt (env : gmap string string) (key : string)
    (defaultValue : Z) : Z :=
  let value := Getenv env key in
  if negb (value =? "") then
    if value =? "10" then 10%Z
    else if value =? "100" then 100%Z
    else if value =? "300" then 300%Z
    else if value =? "3" then 3%Z
    else defaultValue
  else defaultValue.

(** [LoadConfig], for the fields the engine reads. *)
Definition LoadConfig (env : gmap string string) : Config :=
  {| MaxConcurrentWorkflows :=
       Z.to_nat (getEnvAsInt env "MAX_CONCURRENT_WORKFLOWS" 100);
     WorkflowCheckInterval := getEnvAsInt env "WORKFLOW_CHECK_INTERVAL" 10;
     StepTimeout := getEnvAsInt env "STEP_TIMEOUT" 300 |}.

(** ** Vocabulary of the statements *)

(** The message [ExecuteStep] publishes for a step that returned [result]. *)
Definition step_event (w : World) (instanceID : uuid) (stepID : string)
    (result : StepResult) : Event :=
  {| ev_type := "step_completed";
     ev_instance_id := instanceID;
     ev_step_id := stepID;
     ev_timestamp := (clock w / second)%Z;
     ev_success := Some (Success result);
     ev_error := if Error result =? "" then None else Some (Error result) |}.

(** A predicate holds when its evaluation yields true. *)
Definition holds (variables : JSONB) (condition : StepCondition) : bool :=
  match evaluateCondition condition variables with
  | Some true => true
  | _ => false
  end.

(** The operators of the numeric comparisons. *)
Definition ordering_operators : list string :=
  ["gt"; "greater_than"; "lt"; "less_than"].

(** The step ids of the [step_completed] messages on the bus: the steps that
    were executed, in order. *)
Definition executed (w : World) : list string := ev_step_id <$> bus w.

(** A step record as the second branch of [HandleStepTimeout] rewrites it. *)
Definition timed_out_row (now : Z) (row : WorkflowStep) : WorkflowStep :=
  set_step row StepStatusFailed (step_OutputData row)
    {[ "error" := JStr "step timed out" ]} (step_StartedAt row) (Some now)
    (step_RetryCount row).

(** Every mark in the [instances] map belongs to a goroutine that is past
    its [Store] and has not returned. *)
Definition marks_live (s : Scheduler.state) : Prop :=
  ∀ instanceID, instanceID ∈ Scheduler.instances s →
    ∃ i, Scheduler.workers s !! i = Some (instanceID, Scheduler.Marked).

(** The operator names that [evaluateCondition] has a case for. *)
Definition known_operators : list string :=
  ["eq"; "equals"; "ne"; "not_equals"; "gt"; "greater_than"; "lt";
   "less_than"; "contains"].

(** What [executeParallelStep] reports for one sub-task. *)
Definition parallel_report (parallelStepData : jvalue) : jvalue :=
  JObj {[ "status" := JStr "completed"; "data" := parallelStepData ]}.

(** A goroutine that has not returned. *)
Definition live (p : Scheduler.pc) : bool :=
  match p with Scheduler.Exited => false | _ => true end.

(** No two live goroutines work for the same instance. *)
Definition single_workers (s : Scheduler.state) : Prop :=
  ∀ i j instanceID p q,
    Scheduler.workers s !! i = Some (instanceID, p) →
    Scheduler.workers s !! j = Some (instanceID, q) →
    live p = true → live q = true → i = j.

(** The instance of every goroutine past its [Store] is marked. *)
Definition workers_marked (s : Scheduler.state) : Prop :=
  ∀ i instanceID,
    Scheduler.workers s !! i = Some (instanceID, Scheduler.Marked) →
    instanceID ∈ Scheduler.instances s.

(** No goroutine stands between its start and its [Store]. *)
Definition settled (s : Scheduler.state) : bool :=
  forallb (λ '(_, p), match p with Scheduler.Spawned => false | _ => true end)
    (Scheduler.workers s).

(** A schedule in which [processQueue] receives only in settled states: every
    goroutine it has started makes its [Store] before the next receive. *)
Fixpoint prompt_schedule (capacity : nat) (s : Scheduler.state)
    (l : list Scheduler.action) : option Scheduler.state :=
  match l with
  | [] => Some s
  | a :: l =>
    if match a with Scheduler.Receive => settled s | _ => true end then
      match Scheduler.step capacity s a with
      | Some s => prompt_schedule capacity s l
      | None => None
      end
    else None
  end.

(** ** Scenarios

    The concrete templates, instances and stores the statements below are
    tried on. *)

Definition log_step (id : string) (next : list string)
    : WorkflowStepDefinition :=
  {| def_ID := id; def_Name := id; def_Type := StepTypeAction;
     def_Config := {[ "action" := JStr "log_message";
                      "message" := JStr "reached" ]};
     def_NextSteps := next; def_Conditions := []; def_RetryPolicy := None |}.

Definition condition_step (id : string) (conditions : list StepCondition)
    (next : list string) : WorkflowStepDefinition :=
  {| def_ID := id; def_Name := id; def_Type := StepTypeCondition;
     def_Config := ∅; def_NextSteps := next; def_Conditions := conditions;
     def_RetryPolicy := None |}.

Definition wait_event_step (id event : string) (next : list string)
    : WorkflowStepDefinition :=
  {| def_ID := id; def_Name := id; def_Type := StepTypeWait;
     def_Config := {[ "wait_type" := JStr "event"; "event" := JStr event ]};
     def_NextSteps := next; def_Conditions := []; def_RetryPolicy := None |}.

(** A step of a type the executor does not know. *)
Definition unknown_step (id : string) : WorkflowStepDefinition :=
  {| def_ID := id; def_Name := id; def_Type := "teleport";
     def_Config := ∅; def_NextSteps := []; def_Conditions := [];
     def_RetryPolicy := None |}.

(** [x > 5]. *)
Definition x_gt_5 : StepCondition :=
  {| Field := "x"; Operator := "gt"; Value := JNum 5%float |}.

(** [missing > 5], on a key no scenario defines. *)
Definition missing_gt_5 : StepCondition :=
  {| Field := "missing"; Operator := "gt"; Value := JNum 5%float |}.

(** [tags == ["vip"]], an equality between two JSON arrays. *)
Definition tags_eq_vip : StepCondition :=
  {| Field := "tags"; Operator := "eq"; Value := JArr [JStr "vip"] |}.

Definition tagged_instance : WorkflowInstance :=
  {| inst_TemplateID := 1%N; inst_Name := "order";
     inst_Status := WorkflowStatusRunning; inst_Context := ∅;
     inst_Variables := {[ "tags" := JArr [JStr "vip"] ]};
     inst_CurrentStep := "";
     inst_StartedAt := Some 0%Z; inst_CompletedAt := None;
     inst_ErrorMessage := "" |}.

Definition running_instance (x : float) (currentStep : string)
    : WorkflowInstance :=
  {| inst_TemplateID := 1%N; inst_Name := "order";
     inst_Status := WorkflowStatusRunning; inst_Context := ∅;
     inst_Variables := {[ "x" := JNum x ]}; inst_CurrentStep := currentStep;
     inst_StartedAt := Some 0%Z; inst_CompletedAt := None;
     inst_ErrorMessage := "" |}.

(** A store that holds one instance, with id 7, five seconds after the
    epoch. *)
Definition store_of (instance : WorkflowInstance) : World :=
  {| templates := ∅; instances := {[ 7%N := instance ]}; steps := ∅;
     bus := []; clock := (5 * second)%Z |}.

(** A template of two log steps, A then B. *)
Definition two_steps : WorkflowSchema :=
  {| Steps := [log_step "A" ["B"]; log_step "B" []] |}.

(** A step definition that allows three retries, and the store in which its
    step has been [running] since the epoch, with no retry so far, for the
    running instance 7; the clock shows 1000 seconds. *)
Definition retried_step : WorkflowStepDefinition :=
  {| def_ID := "A"; def_Name := "A"; def_Type := StepTypeAction;
     def_Config := {[ "action" := JStr "http_request";
                      "url" := JStr "http://inventory/reserve" ]};
     def_NextSteps := []; def_Conditions := [];
     def_RetryPolicy := Some {| MaxRetries := 3; Delay := 1 |} |}.

Definition stuck_store : World :=
  {| templates := ∅;
     instances := {[ 7%N := running_instance 10 "" ]};
     steps := {[ 3%N := {| step_InstanceID := 7; step_StepID := "A";
                           step_StepType := StepTypeAction;
                           step_Status := StepStatusRunning;
                           step_InputData := def_Config retried_step;
                           step_OutputData := ∅; step_ErrorData := ∅;
                           step_StartedAt := Some 0%Z;
                           step_CompletedAt := None;
                           step_RetryCount := 0 |} ]};
     bus := [];
     clock := (1000 * second)%Z |}.

(** A configuration in which a step times out after 300 seconds. *)
Definition five_minutes : Config :=
  {| MaxConcurrentWorkflows := 100; WorkflowCheckInterval := 30;
     StepTimeout := 300 |}.

(** A pending instance, and an engine whose queue, of capacity 2, is full. *)
Definition pending_instance : WorkflowInstance :=
  {| inst_TemplateID := 1%N; inst_Name := "order";
     inst_Status := WorkflowStatusPending; inst_Context := ∅;
     inst_Variables := ∅; inst_CurrentStep := "";
     inst_StartedAt := None; inst_CompletedAt := None;
     inst_ErrorMessage := "" |}.

Definition full_queue : Scheduler.state :=
  {| Scheduler.queue := [3%N; 4%N]; Scheduler.instances := ∅;
     Scheduler.workers := [] |}.

(** * Properties *)

(** ** Rows of the steps table *)

Lemma first_row_spec (rows : list (uuid * WorkflowStep)) :
  match first_row rows with
  | None => rows = []
  | Some kr => kr ∈ rows ∧ ∀ kr', kr' ∈ rows → (kr.1 ≤ kr'.1)%N
  end.
Proof.
  induction rows as [|x rows IH]; simpl; [done|].
  destruct (first_row rows) as [kr|].
  - destruct IH as [Hin Hmin].
    destruct (N.ltb_spec x.1 kr.1) as [Hlt|Hge].
    + split; [left|].
      intros kr' [->|H']%elem_of_cons; [lia|].
      specialize (Hmin _ H'). lia.
    + split; [by right|].
      intros kr' [->|H']%elem_of_cons; [lia|by apply Hmin].
  - subst rows. split; [left|].
    intros kr' [->|H']%elem_of_cons; [lia|]. by apply elem_of_nil in H'.
Qed.

Lemma elem_of_find_steps (P : WorkflowStep → bool) (w : World) k row :
  (k, row) ∈ find_steps P w ↔ steps w !! k = Some row ∧ P row = true.
Proof.
  unfold find_steps. rewrite list_elem_of_In, filter_In, <- list_elem_of_In.
  rewrite elem_of_map_to_list. done.
Qed.

Lemma NoDup_find_steps (P : WorkflowStep → bool) (w : World) :
  NoDup (find_steps P w).*1.
Proof.
  unfold find_steps.
  assert (Hnd : NoDup (map_to_list (steps w)).*1) by apply NoDup_fst_map_to_list.
  induction (map_to_list (steps w)) as [|x l IH]; simpl; [constructor|].
  apply NoDup_cons in Hnd as [Hx Hl].
  destruct (P x.2); simpl; [|by apply IH].
  apply NoDup_cons. split; [|by apply IH].
  intros Hin. apply Hx.
  apply list_elem_of_fmap in Hin as (y & -> & Hy).
  apply list_elem_of_fmap. exists y. split; [done|].
  apply list_elem_of_In, filter_In in Hy as [Hy _]. by apply list_elem_of_In.
Qed.

(** The row a [First] query yields is in the table, matches, and has the
    least key among those that match. *)
Lemma first_row_Some (P : WorkflowStep → bool) (w : World) k row :
  first_row (find_steps P w) = Some (k, row) ↔
  steps w !! k = Some row ∧ P row = true ∧
  ∀ k' row', steps w !! k' = Some row' → P row' = true → (k ≤ k')%N.
Proof.
  pose proof (first_row_spec (find_steps P w)) as Hspec.
  split.
  - intros Heq. rewrite Heq in Hspec. destruct Hspec as [Hin Hmin].
    apply elem_of_find_steps in Hin as [Hk HP].
    repeat split; [done..|].
    intros k' row' Hk' HP'.
    apply (Hmin (k', row')), elem_of_find_steps. done.
  - intros (Hk & HP & Hmin).
    assert (Hin : (k, row) ∈ find_steps P w) by by apply elem_of_find_steps.
    destruct (first_row (find_steps P w)) as [[k0 row0]|].
    + destruct Hspec as [Hin0 Hmin0].
      pose proof (Hmin0 _ Hin) as Hle. simpl in Hle.
      apply elem_of_find_steps in Hin0 as [Hk0 HP0].
      pose proof (Hmin _ _ Hk0 HP0) as Hle'.
      assert (k0 = k) as -> by lia. congruence.
    + rewrite Hspec in Hin. by apply elem_of_nil in Hin.
Qed.

Lemma first_row_None (P : WorkflowStep → bool) (w : World) :
  first_row (find_steps P w) = None →
  ∀ k row, steps w !! k = Some row → P row = false.
Proof.
  intros Heq k row Hk.
  pose proof (first_row_spec (find_steps P w)) as Hspec. rewrite Heq in Hspec.
  destruct (P row) eqn:HP; [|done].
  assert (Hin : (k, row) ∈ find_steps P w) by by apply elem_of_find_steps.
  rewrite Hspec in Hin. by apply elem_of_nil in Hin.
Qed.

(** Saving a matching row under the key of the first match keeps it first. *)
Lemma first_row_Save (P : WorkflowStep → bool) (w : World) k row row' :
  first_row (find_steps P w) = Some (k, row) → P row' = true →
  first_row (find_steps P (Save w k row')) = Some (k, row').
Proof.
  intros (Hk & HP & Hmin)%first_row_Some HP'. apply first_row_Some. simpl.
  split; [apply lookup_insert_eq|]. split; [done|].
  intros k' r' Hk' Hr'. destruct (decide (k = k')) as [->|Hne]; [lia|].
  rewrite lookup_insert_ne in Hk' by done. by eapply Hmin.
Qed.

Lemma createOrUpdateStep_first (w : World) instanceID stepDef :
  first_row (find_steps (is_step_of instanceID (def_ID stepDef))
               (createOrUpdateStep w instanceID stepDef).1)
  = Some (createOrUpdateStep w instanceID stepDef).2.
Proof.
  unfold createOrUpdateStep.
  destruct (first_row (find_steps _ w)) as [[k row]|] eqn:Hfirst; simpl;
    [exact Hfirst|].
  apply first_row_Some. simpl.
  split; [apply lookup_insert_eq|]. split.
  - unfold is_step_of. simpl. by rewrite N.eqb_refl, String.eqb_refl.
  - intros k' row' Hk' HP'.
    destruct (decide (fresh (dom (steps w)) = k')) as [->|Hne]; [lia|].
    rewrite lookup_insert_ne in Hk' by done.
    pose proof (first_row_None _ _ Hfirst _ _ Hk'). congruence.
Qed.

Lemma createOrUpdateStep_world (w : World) instanceID stepDef :
  let w' := (createOrUpdateStep w instanceID stepDef).1 in
  templates w' = templates w ∧ instances w' = instances w ∧
  bus w' = bus w ∧ clock w' = clock w.
Proof.
  unfold createOrUpdateStep. by destruct (first_row _) as [[k row]|].
Qed.

Lemma find_steps_ext (P : WorkflowStep → bool) (w w' : World) :
  steps w = steps w' → find_steps P w = find_steps P w'.
Proof. unfold find_steps. by intros ->. Qed.

(** ** What [ExecuteStep] does to the world *)

(** Only [update_variables] writes, and it writes one instance row. *)
Lemma executeByType_world w instanceID instance stepDef w' instance' r :
  executeByType w instanceID instance stepDef = Some (w', instance', r) →
  steps w' = steps w ∧ bus w' = bus w ∧ clock w' = clock w ∧
  templates w' = templates w ∧
  ∃ f, instances w' = alter f instanceID (instances w).
Proof.
  assert (Hid : ∃ f : WorkflowInstance → WorkflowInstance,
             instances w = alter f instanceID (instances w)).
  { exists (λ row, row). apply map_eq. intros i. rewrite lookup_alter.
    case_decide; [subst i|reflexivity].
    destruct (instances w !! instanceID); reflexivity. }
  assert (Hsame : ∀ r0 : returned StepResult,
             Some (w, instance, r0) = Some (w', instance', r) →
             steps w' = steps w ∧ bus w' = bus w ∧ clock w' = clock w ∧
             templates w' = templates w ∧
             ∃ f, instances w' = alter f instanceID (instances w)).
  { intros r0 [= <- <- <-]. by repeat split. }
  unfold executeByType, executeActionStep, executeUpdateVariables.
  repeat case_match; try apply Hsame.
  - intros [= <- <- <-]. simpl. repeat split; eauto.
  - intros (? & ? & [= <- <- <-])%fmap_Some. by repeat split.
Qed.

(** A call that returns has finalised the step record it worked on, which is
    the record a query for this step of this instance yields afterwards, and
    has published one [step_completed] message. *)
Lemma ExecuteStep_Ok w instanceID instance stepDef w' instance' result err :
  ExecuteStep w instanceID instance stepDef = Ok w' (instance', result, err) →
  (∃ k row,
     first_row (find_steps (is_step_of instanceID (def_ID stepDef)) w')
       = Some (k, row) ∧
     step_Status row
       = match err with
         | Some _ => StepStatusFailed
         | None => StepStatusCompleted
         end ∧
     step_CompletedAt row = Some (clock w)) ∧
  bus w' = (bus w ++ [step_event w instanceID (def_ID stepDef) result])%list ∧
  clock w' = clock w ∧
  (∃ f, instances w' = alter f instanceID (instances w)).
Proof.
  unfold ExecuteStep.
  pose proof (createOrUpdateStep_first w instanceID stepDef) as Hfirst.
  pose proof (createOrUpdateStep_world w instanceID stepDef) as Hw.
  destruct (createOrUpdateStep w instanceID stepDef) as [w1 [k step]].
  simpl in Hfirst, Hw. destruct Hw as (_ & Hinst & Hbus & Hclock).
  set (P := is_step_of instanceID (def_ID stepDef)) in *.
  assert (HP : P step = true) by by apply first_row_Some in Hfirst as (_ & ? & _).
  cbv zeta. set (wr := Save w1 k _).
  destruct (executeByType wr instanceID instance stepDef)
    as [[[w2 instance2] r]|] eqn:Hexec; [|done].
  apply executeByType_world in Hexec as Hw2.
  destruct Hw2 as (Hsteps2 & Hbus2 & Hclock2 & _ & f & Hinst2).
  assert (Hfirst2 : ∀ row, P row = true →
            first_row (find_steps P (Save w2 k row)) = Some (k, row)).
  { intros row Hrow.
    rewrite (find_steps_ext P (Save w2 k row) (Save wr k row))
      by (simpl; by rewrite Hsteps2).
    eapply first_row_Save; [|done].
    subst wr. by eapply first_row_Save. }
  assert (HP' : ∀ st o e a b c, P (set_step step st o e a b c) = true) by done.
  assert (Hcl : clock w2 = clock w) by (rewrite Hclock2; subst wr; done).
  assert (Hb : bus w2 = bus w) by (rewrite Hbus2; subst wr; done).
  assert (Hi : instances w2 = alter f instanceID (instances w))
    by (rewrite Hinst2; subst wr; simpl; by rewrite Hinst).
  destruct r as [res|e]; intros [= <- <- <- <-].
  - split; [eexists _, _; split; [apply Hfirst2, HP'|]; simpl|].
    + by rewrite Hcl.
    + unfold step_event. simpl. rewrite Hb, Hcl. eauto.
  - split; [eexists _, _; split; [apply Hfirst2, HP'|]; simpl|].
    + by rewrite Hcl.
    + unfold step_event. simpl. rewrite Hb, Hcl. eauto.
Qed.

(** Either the step is the [update_variables] action with a map of updates,
    and then the loaded instance and its row get the merged variables, or
    the world and the loaded instance are left as they are. *)
Lemma executeByType_cases w instanceID instance stepDef w' instance' r :
  executeByType w instanceID instance stepDef = Some (w', instance', r) →
  (w' = w ∧ instance' = instance ∧
   ¬ (def_Type stepDef = StepTypeAction ∧
      def_Config stepDef !! "action" = Some (JStr "update_variables") ∧
      ∃ updates, def_Config stepDef !! "updates" = Some (JObj updates))) ∨
  (∃ updates,
     def_Type stepDef = StepTypeAction ∧
     def_Config stepDef !! "action" = Some (JStr "update_variables") ∧
     def_Config stepDef !! "updates" = Some (JObj updates) ∧
     let variables := updates ∪ inst_Variables instance in
     instance' = set_Variables instance variables ∧
     w' = update_instance w instanceID (λ row, set_Variables row variables) ∧
     r = Val {| Success := true;
                Data := {[ "updated_variables" := JObj updates ]};
                Error := "" |}).
Proof.
  unfold executeByType.
  destruct (String.eqb_spec (def_Type stepDef) StepTypeAction) as [Htype|Htype].
  - unfold executeActionStep.
    destruct (def_Config stepDef !! "action") as [[| | |action| |]|] eqn:Haction;
      try (intros [= <- <- <-]; left; repeat split; intros (_ & [=] & _)).
    destruct (String.eqb_spec action "http_request") as [->|];
      [intros [= <- <- <-]; left; repeat split; intros (_ & [=] & _)|].
    destruct (String.eqb_spec action "send_email") as [->|];
      [intros [= <- <- <-]; left; repeat split; intros (_ & [=] & _)|].
    destruct (String.eqb_spec action "log_message") as [->|];
      [intros [= <- <- <-]; left; repeat split; intros (_ & [=] & _)|].
    destruct (String.eqb_spec action "update_variables") as [->|];
      [|intros [= <- <- <-]; left; repeat split; intros (_ & [=] & _);
        congruence].
    unfold executeUpdateVariables.
    destruct (def_Config stepDef !! "updates") as [[| | | | |updates]|] eqn:Hup;
      try (intros [= <- <- <-]; left; repeat split; intros (_ & _ & ? & [=])).
    intros [= <- <- <-]. right. exists updates. by repeat split.
  - assert (Hleft : ∀ r0 : returned StepResult,
              Some (w, instance, r0) = Some (w', instance', r) →
              (w' = w ∧ instance' = instance ∧
               ¬ (def_Type stepDef = StepTypeAction ∧
                  def_Config stepDef !! "action"
                    = Some (JStr "update_variables") ∧
                  ∃ updates,
                    def_Config stepDef !! "updates" = Some (JObj updates))) ∨
              (∃ updates,
                 def_Type stepDef = StepTypeAction ∧
                 def_Config stepDef !! "action"
                   = Some (JStr "update_variables") ∧
                 def_Config stepDef !! "updates" = Some (JObj updates) ∧
                 let variables := updates ∪ inst_Variables instance in
                 instance' = set_Variables instance variables ∧
                 w' = update_instance w instanceID
                        (λ row, set_Variables row variables) ∧
                 r = Val {| Success := true;
                            Data := {[ "updated_variables" := JObj updates ]};
                            Error := "" |})).
    { intros r0 [= <- <- <-]. left. repeat split. by intros [? _]. }
    repeat case_match; try apply Hleft.
    intros (r0 & _ & Heq)%fmap_Some. apply (Hleft r0). by rewrite Heq.
Qed.

(** The shape of a call of [ExecuteStep] that returns. *)
Lemma ExecuteStep_inv w instanceID instance stepDef w' instance' result err :
  ExecuteStep w instanceID instance stepDef = Ok w' (instance', result, err) →
  ∃ w1 k step w2 r final,
    createOrUpdateStep w instanceID stepDef = (w1, (k, step)) ∧
    executeByType
      (Save w1 k (set_step step StepStatusRunning (step_OutputData step)
                    (step_ErrorData step) (Some (clock w1))
                    (step_CompletedAt step) (step_RetryCount step)))
      instanceID instance stepDef = Some (w2, instance', r) ∧
    w' = publishStepEvent (Save w2 k final) "step_completed" instanceID
           (def_ID stepDef) (Some result) ∧
    step_RetryCount final = step_RetryCount step ∧
    step_StartedAt final = Some (clock w) ∧
    step_InstanceID final = step_InstanceID step ∧
    step_StepID final = step_StepID step ∧
    match r with
    | Val res =>
      result = res ∧ err = None ∧ step_Status final = StepStatusCompleted ∧
      step_OutputData final = Data res
    | Err e =>
      result = {| Success := false; Data := ∅; Error := e |} ∧ err = Some e ∧
      step_Status final = StepStatusFailed ∧
      step_ErrorData final = {[ "error" := JStr e ]}
    end.
Proof.
  unfold ExecuteStep.
  pose proof (createOrUpdateStep_world w instanceID stepDef) as Hw.
  destruct (createOrUpdateStep w instanceID stepDef) as [w1 [k step]].
  destruct Hw as (_ & _ & _ & Hclock). simpl in Hclock.
  cbv zeta. set (wr := Save w1 k _).
  destruct (executeByType wr instanceID instance stepDef)
    as [[[w2 instance2] r]|] eqn:Hexec; [|done].
  destruct r as [res|e]; intros [= <- <- <- <-];
    eexists w1, k, step, w2, _, _; (split; [done|]); (split; [exact Hexec|]);
    (split; [reflexivity|]); simpl; by rewrite Hclock.
Qed.

(** A step that is not an action leaves the instances alone. *)
Lemma ExecuteStep_instances w instanceID instance stepDef w' instance' result
    err :
  ExecuteStep w instanceID instance stepDef = Ok w' (instance', result, err) →
  def_Type stepDef ≠ StepTypeAction →
  instances w' = instances w ∧ instance' = instance.
Proof.
  intros Hexec Htype.
  apply ExecuteStep_inv in Hexec
    as (w1 & k & step & w2 & r & final & Hcreate & Hexec & -> & _).
  pose proof (createOrUpdateStep_world w instanceID stepDef) as Hw.
  rewrite Hcreate in Hw. destruct Hw as (_ & Hinst & _). simpl in *.
  apply executeByType_cases in Hexec
    as [(-> & -> & _)|(updates & ? & _)]; [|done].
  simpl. by rewrite Hinst.
Qed.

(** ** Condition steps *)

Lemma evaluateAll_Success conditions variables r :
  evaluateAll conditions variables = Some r →
  Success r = forallb (holds variables) conditions.
Proof.
  revert r. induction conditions as [|c conditions IH]; simpl; intros r.
  - by intros [= <-].
  - unfold holds at 1.
    destruct (evaluateCondition c variables) as [[]|]; simpl; [apply IH| |done].
    by intros [= <-].
Qed.

Lemma evaluateAll_total conditions variables :
  (∀ c, c ∈ conditions → evaluateCondition c variables ≠ None) →
  is_Some (evaluateAll conditions variables).
Proof.
  induction conditions as [|c conditions IH]; simpl; intros Hall; [eauto|].
  pose proof (Hall c ltac:(left)) as Hc.
  destruct (evaluateCondition c variables) as [[]|]; [|eauto|done].
  apply IH. intros c' Hc'. apply Hall. by right.
Qed.

(** A predicate on an absent field is false before its operator is looked
    at. *)
Lemma evaluateCondition_absent condition variables :
  variables !! Field condition = None →
  evaluateCondition condition variables = Some false.
Proof. unfold evaluateCondition. by intros ->. Qed.

(** An ordering predicate never panics, and is true only on two numbers. *)
Lemma evaluateCondition_ordering condition variables :
  Operator condition ∈ ordering_operators →
  evaluateCondition condition variables ≠ None ∧
  (evaluateCondition condition variables = Some true →
   ∃ vFloat cFloat,
     variables !! Field condition = Some (JNum vFloat) ∧
     Value condition = JNum cFloat).
Proof.
  unfold ordering_operators, evaluateCondition. intros Hop.
  destruct (variables !! Field condition) as [value|]; [|done].
  repeat (apply elem_of_cons in Hop as [->|Hop]); [..|by apply elem_of_nil in Hop];
    simpl; destruct value, (Value condition); split; try done; eauto.
Qed.

(** A [contains] predicate never panics, and is true only on two strings. *)
Lemma evaluateCondition_contains condition variables :
  Operator condition = "contains" →
  evaluateCondition condition variables ≠ None ∧
  (evaluateCondition condition variables = Some true →
   ∃ vStr cStr,
     variables !! Field condition = Some (JStr vStr) ∧
     Value condition = JStr cStr ∧ Contains vStr cStr = true).
Proof.
  unfold evaluateCondition. intros ->.
  destruct (variables !! Field condition) as [value|]; [|done].
  simpl; destruct value, (Value condition); split; try done.
  intros [= ?]. eauto.
Qed.

Lemma executeConditionStep_Val instance stepDef :
  (∀ c, c ∈ def_Conditions stepDef →
        evaluateCondition c (inst_Variables instance) ≠ None) →
  ∃ r, executeConditionStep instance stepDef = Some (Val r) ∧
       Success r = match def_Conditions stepDef with
                   | [] => false
                   | _ => forallb (holds (inst_Variables instance))
                            (def_Conditions stepDef)
                   end.
Proof.
  intros Hall. unfold executeConditionStep.
  destruct (def_Conditions stepDef) as [|c conditions] eqn:Hconds;
    [by eexists|].
  destruct (evaluateAll_total _ _ Hall) as [r Hr].
  change (length (c :: conditions) =? 0)%nat with false. cbv iota.
  rewrite Hr. exists r. split; [done|]. by apply evaluateAll_Success.
Qed.

(** On a condition step [ExecuteStep] returns what [executeConditionStep]
    returns, with a nil error, and leaves the loaded instance as it is. *)
Lemma ExecuteStep_condition w instanceID instance stepDef r :
  def_Type stepDef = StepTypeCondition →
  executeConditionStep instance stepDef = Some (Val r) →
  ∃ w', ExecuteStep w instanceID instance stepDef = Ok w' (instance, r, None).
Proof.
  intros Htype Hr. unfold ExecuteStep.
  destruct (createOrUpdateStep w instanceID stepDef) as [w1 [k step]].
  cbv zeta. unfold executeByType. rewrite Htype, Hr. simpl. eauto.
Qed.

Lemma executeByType_None w instanceID instance stepDef :
  executeByType w instanceID instance stepDef = None →
  def_Type stepDef = StepTypeCondition ∧
  executeConditionStep instance stepDef = None.
Proof.
  unfold executeByType.
  destruct (String.eqb_spec (def_Type stepDef) StepTypeAction); [done|].
  destruct (String.eqb_spec (def_Type stepDef) StepTypeCondition) as [->|].
  - intros H%fmap_None. done.
  - by repeat case_match.
Qed.

(** [ExecuteStep] returns unless a condition of a condition step panics. *)
Lemma ExecuteStep_returns w instanceID instance stepDef :
  (def_Type stepDef = StepTypeCondition →
   ∀ c, c ∈ def_Conditions stepDef →
        evaluateCondition c (inst_Variables instance) ≠ None) →
  ∃ w' out, ExecuteStep w instanceID instance stepDef = Ok w' out.
Proof.
  intros Hsafe. unfold ExecuteStep.
  destruct (createOrUpdateStep w instanceID stepDef) as [w1 [k step]].
  cbv zeta.
  match goal with
  | |- context [executeByType ?wr _ _ _] =>
    destruct (executeByType wr instanceID instance stepDef)
      as [[[w2 instance2] [res|e]]|] eqn:Hexec
  end; [eauto..|].
  apply executeByType_None in Hexec as [Htype Hnone].
  destruct (executeConditionStep_Val instance stepDef (Hsafe Htype))
    as (r & Hr & _).
  congruence.
Qed.

(** ** The claims *)

(** C7, as stated, fails on the empty list of conditions: the conjunction of
    no predicate is true, and the step reports a failure
    ("no conditions defined").  It also fails where a predicate compares two
    arrays for equality: the evaluation panics and there is no result. *)
Lemma condition_empty_list_counterexample :
  let instance := running_instance 10 "" in
  let stepDef := condition_step "B" [] ["C"; "D"] in
  (∃ r, executeConditionStep instance stepDef = Some (Val r) ∧
        Error r = "no conditions defined" ∧
        Success r = false ∧
        forallb (holds (inst_Variables instance)) (def_Conditions stepDef)
          = true) ∧
  executeConditionStep tagged_instance
    (condition_step "B" [tags_eq_vip] ["C"; "D"]) = None.
Proof.
  split; [|reflexivity]. simpl. eexists. split; [reflexivity|]. by repeat split.
Qed.

(** C7, amended: for a condition step whose predicates evaluate without a
    panic, the result's success is the conjunction of the predicates when the
    list of conditions is not empty, and false when it is empty; an ordering
    predicate (gt, lt) is never an error and is true only when both operands
    are numbers, and a contains predicate is never an error and is true only
    when both operands are strings. *)
Theorem condition_step_success instance stepDef :
  let variables := inst_Variables instance in
  let conditions := def_Conditions stepDef in
  (∀ c, c ∈ conditions → evaluateCondition c variables ≠ None) →
  (∃ r, executeConditionStep instance stepDef = Some (Val r) ∧
        Success r = match conditions with
                    | [] => false
                    | _ => forallb (holds variables) conditions
                    end) ∧
  (∀ c, Operator c ∈ ordering_operators →
        evaluateCondition c variables ≠ None ∧
        (holds variables c = true →
         ∃ vFloat cFloat,
           variables !! Field c = Some (JNum vFloat) ∧ Value c = JNum cFloat)) ∧
  (∀ c, Operator c = "contains" →
        evaluateCondition c variables ≠ None ∧
        (holds variables c = true →
         ∃ vStr cStr,
           variables !! Field c = Some (JStr vStr) ∧ Value c = JStr cStr)).
Proof.
  intros variables conditions Hsafe.
  split; [by apply executeConditionStep_Val|].
  assert (Htrue : ∀ c, holds variables c = true →
                       evaluateCondition c variables = Some true).
  { intros c. unfold holds.
    by destruct (evaluateCondition c variables) as [[]|]. }
  split; intros c Hop.
  - destruct (evaluateCondition_ordering c variables Hop) as [Hsome Hnum].
    split; [done|]. intros Hc. by apply Hnum, Htrue.
  - destruct (evaluateCondition_contains c variables Hop) as [Hsome Hstr].
    split; [done|]. intros Hc.
    destruct (Hstr (Htrue _ Hc)) as (vStr & cStr & ? & ? & _). eauto.
Qed.

Lemma condition_step_success_witness :
  ∃ r, executeConditionStep (running_instance 10 "")
         (condition_step "B" [x_gt_5; missing_gt_5] ["C"; "D"]) = Some (Val r) ∧
       Success r = false.
Proof.
  destruct (condition_step_success (running_instance 10 "")
              (condition_step "B" [x_gt_5; missing_gt_5] ["C"; "D"]))
    as [(r & Hr & Hs) _].
  - intros c Hc. simpl in Hc.
    apply elem_of_cons in Hc as [->|Hc]; [vm_compute; discriminate|].
    apply elem_of_cons in Hc as [->|Hc]; [vm_compute; discriminate|].
    by apply elem_of_nil in Hc.
  - exists r. split; [exact Hr|]. rewrite Hs. reflexivity.
Defined.

(** C10: a predicate whose field is absent from the instance's variables
    evaluates to false whatever its operator is, and a condition step that
    reaches it returns a failure result with a nil error. *)
Theorem absent_field_fails_step w instanceID instance stepDef before c after :
  def_Type stepDef = StepTypeCondition →
  def_Conditions stepDef = (before ++ c :: after)%list →
  inst_Variables instance !! Field c = None →
  (∀ p, p ∈ before → evaluateCondition p (inst_Variables instance) ≠ None) →
  evaluateCondition c (inst_Variables instance) = Some false ∧
  ∃ w' r, ExecuteStep w instanceID instance stepDef = Ok w' (instance, r, None) ∧
          Success r = false.
Proof.
  intros Htype Hconds Habsent Hbefore.
  pose proof (evaluateCondition_absent _ _ Habsent) as Hc.
  split; [done|].
  assert (Hall : ∃ r, evaluateAll (before ++ c :: after)
                        (inst_Variables instance) = Some r ∧ Success r = false).
  { clear Hconds. induction before as [|p before IH]; simpl.
    - rewrite Hc. by eexists.
    - pose proof (Hbefore p ltac:(left)) as Hp.
      destruct (evaluateCondition p (inst_Variables instance)) as [[]|];
        [|by eexists|done].
      apply IH. intros q Hq. apply Hbefore. by right. }
  destruct Hall as (r & Hr & Hs).
  destruct (ExecuteStep_condition w instanceID instance stepDef r Htype)
    as [w' Hw'].
  - unfold executeConditionStep. rewrite Hconds, Hr.
    by destruct before.
  - eauto.
Qed.

Lemma absent_field_fails_step_witness :
  ∃ w' r, ExecuteStep (store_of (running_instance 10 "")) 7
            (running_instance 10 "")
            (condition_step "B" [x_gt_5; missing_gt_5] ["C"; "D"])
          = Ok w' (running_instance 10 "", r, None) ∧
          Success r = false.
Proof.
  apply (absent_field_fails_step (store_of (running_instance 10 "")) 7
           (running_instance 10 "")
           (condition_step "B" [x_gt_5; missing_gt_5] ["C"; "D"])
           [x_gt_5] missing_gt_5 []).
  - reflexivity.
  - reflexivity.
  - reflexivity.
  - intros p Hp. apply elem_of_cons in Hp as [->|Hp]; [vm_compute; discriminate|].
    by apply elem_of_nil in Hp.
Defined.



(** ** The orchestration loop *)

Lemma lookup_update_instance w instanceID f :
  instances (update_instance w instanceID f) !! instanceID
  = f <$> instances w !! instanceID.
Proof. simpl. apply lookup_alter_eq. Qed.

Lemma WorkflowStatus_eqb_eq a b : WorkflowStatus_eqb a b = true ↔ a = b.
Proof. destruct a, b; by split. Qed.

Lemma checkInstanceStatus_running w instanceID row :
  instances w !! instanceID = Some row →
  inst_Status row = WorkflowStatusRunning →
  checkInstanceStatus w instanceID = None.
Proof. unfold checkInstanceStatus. by intros -> ->. Qed.

(** The last turn: when the step has returned without error and no next step
    is resolved, the loop completes the instance and returns nil. *)
Lemma workflowLoop_last_turn env turns k w instanceID instance schema
    currentStepID row stepDef w1 instance1 result :
  instances (act env k w) !! instanceID = Some row →
  inst_Status row = WorkflowStatusRunning →
  findStepDefinition (Steps schema) currentStepID = Some stepDef →
  ExecuteStep (act env k w) instanceID instance stepDef
    = Ok w1 (instance1, result, None) →
  determineNextStep stepDef result = ("", None) →
  let w' := completeInstance
              (updateInstanceCurrentStep w1 instanceID currentStepID)
              instanceID in
  workflowLoop env (S turns) k w instanceID instance schema currentStepID
    = Returned w' None ∧
  ∃ row', instances w' !! instanceID = Some row' ∧
          inst_Status row' = WorkflowStatusCompleted ∧
          inst_CompletedAt row' = Some (clock (act env k w)).
Proof.
  intros Hrow Hrunning Hdef Hexec Hnext w'. split.
  - cbn [workflowLoop].
    rewrite (checkInstanceStatus_running _ _ _ Hrow Hrunning), Hdef, Hexec,
      Hnext.
    done.
  - destruct (ExecuteStep_Ok _ _ _ _ _ _ _ _ Hexec)
      as (_ & _ & Hclock & f & Hinst).
    subst w'. unfold completeInstance, updateInstanceCurrentStep.
    rewrite !lookup_update_instance, Hinst, lookup_alter_eq, Hrow.
    eexists. split; [done|]. simpl. by rewrite Hclock.
Qed.

Lemma determineNextStep_no_error stepDef result :
  (determineNextStep stepDef result).2 = None.
Proof. unfold determineNextStep. by repeat case_match. Qed.

(** One turn of the loop on a running instance whose current step is in the
    schema and returns without error: the step is recorded as the current
    step, and the id that next-step resolution yields decides between
    completing the instance and going on. *)
Lemma workflowLoop_turn env turns k w instanceID instance schema currentStepID
    row stepDef w1 instance1 result :
  instances (act env k w) !! instanceID = Some row →
  inst_Status row = WorkflowStatusRunning →
  findStepDefinition (Steps schema) currentStepID = Some stepDef →
  ExecuteStep (act env k w) instanceID instance stepDef
    = Ok w1 (instance1, result, None) →
  let w2 := updateInstanceCurrentStep w1 instanceID currentStepID in
  let next := (determineNextStep stepDef result).1 in
  workflowLoop env (S turns) k w instanceID instance schema currentStepID
  = if next =? "" then Returned (completeInstance w2 instanceID) None
    else if done env k then Returned w2 (Some "workflow engine shutting down")
    else workflowLoop env turns (S k) w2 instanceID instance1 schema next.
Proof.
  intros Hrow Hrunning Hdef Hexec w2 next. subst w2 next.
  cbn [workflowLoop].
  rewrite (checkInstanceStatus_running _ _ _ Hrow Hrunning), Hdef, Hexec.
  pose proof (determineNextStep_no_error stepDef result) as Herr.
  destruct (determineNextStep stepDef result) as [nextStepID err].
  simpl in Herr. by subst err.
Qed.

(** The row of an instance after a step that returned and was recorded as
    the current step. *)
Lemma lookup_updateInstanceCurrentStep w instanceID stepID :
  instances (updateInstanceCurrentStep w instanceID stepID) !! instanceID
  = (λ row, set_instance row (inst_Status row) stepID (inst_CompletedAt row)
              (inst_ErrorMessage row)) <$> instances w !! instanceID.
Proof. unfold updateInstanceCurrentStep. apply lookup_update_instance. Qed.

(** C9: when the schema of the template of a running instance has no step,
    the worker marks the instance completed at once, for any number of turns
    it is given: the status of its row is [completed], its [completed_at] is
    the current time and its other columns are as they were; no other
    instance changes, no step is executed (nothing is published) and the
    steps table is left as it was. *)
Theorem empty_schema_completes parseSchema env turns w instanceID row schema :
  instances w !! instanceID = Some row →
  inst_Status row = WorkflowStatusRunning →
  parseSchema (templateSchema w row) = Val schema →
  Steps schema = [] →
  let w' := completeInstance w instanceID in
  executeWorkflow env turns w instanceID row schema = Returned w' None ∧
  processInstance parseSchema env turns w instanceID = Returned w' tt ∧
  (∃ row',
     instances w' !! instanceID = Some row' ∧
     inst_Status row' = WorkflowStatusCompleted ∧
     inst_CompletedAt row' = Some (clock w) ∧
     inst_CurrentStep row' = inst_CurrentStep row ∧
     inst_ErrorMessage row' = inst_ErrorMessage row ∧
     inst_Variables row' = inst_Variables row ∧
     inst_Context row' = inst_Context row ∧
     inst_StartedAt row' = inst_StartedAt row ∧
     inst_TemplateID row' = inst_TemplateID row ∧
     inst_Name row' = inst_Name row) ∧
  (∀ other, other ≠ instanceID → instances w' !! other = instances w !! other) ∧
  steps w' = steps w ∧ bus w' = bus w.
Proof.
  intros Hrow Hrunning Hparse Hsteps w'.
  assert (Hexec : executeWorkflow env turns w instanceID row schema
                  = Returned w' None)
    by (unfold executeWorkflow; by rewrite Hsteps).
  split; [done|]. split.
  { unfold processInstance. by rewrite Hrow, Hrunning, Hparse, Hexec. }
  split.
  { subst w'. unfold completeInstance.
    rewrite lookup_update_instance, Hrow. eexists. split; [done|].
    by repeat split. }
  split; [|done].
  intros other Hne. subst w'. simpl. by apply lookup_alter_ne.
Qed.

Lemma empty_schema_completes_witness :
  let w := store_of (running_instance 10 "") in
  ∃ w' row',
    processInstance (λ _, Val {| Steps := [] |}) quiet 0 w 7 = Returned w' tt ∧
    instances w' !! 7%N = Some row' ∧
    inst_Status row' = WorkflowStatusCompleted ∧
    inst_CompletedAt row' = Some 5000000000%Z ∧
    steps w' = ∅ ∧ bus w' = [].
Proof.
  intros w.
  destruct (empty_schema_completes (λ _, Val {| Steps := [] |}) quiet 0
              w 7 (running_instance 10 "") {| Steps := [] |})
    as (_ & Hp & (row' & Hrow' & Hstatus & Hcompleted & _) & _ & Hsteps & Hbus);
    [reflexivity..|].
  exists (completeInstance w 7), row'.
  split; [exact Hp|]. split; [exact Hrow'|]. split; [exact Hstatus|].
  split; [exact Hcompleted|]. split; [exact Hsteps|exact Hbus].
Defined.

(** C1, as stated, fails: with [x = 1] the condition [x > 5] of step B fails,
    B has the single next entry C, and next-step resolution yields C, not the
    end of the workflow.  C is executed after B; and when the template has no
    step C the instance ends [failed]. *)
Lemma single_next_counterexample :
  let instance := running_instance 1 "" in
  let B := condition_step "B" [x_gt_5] ["C"] in
  (∃ r, executeConditionStep instance B = Some (Val r) ∧
        Success r = false ∧
        determineNextStep B r = ("C", None)) ∧
  executed (world_of (executeWorkflow quiet 5 (store_of instance) 7 instance
                        {| Steps := [B; log_step "C" []] |}))
    = ["B"; "C"] ∧
  (let w' := world_of (processInstance (λ _, Val {| Steps := [B] |}) quiet 5
                         (store_of instance) 7) in
   inst_Status <$> instances w' !! 7%N = Some WorkflowStatusFailed ∧
   inst_ErrorMessage <$> instances w' !! 7%N
     = Some "step definition not found: C").
Proof.
  split; [eexists; by split|]. split; [by vm_compute|]. by vm_compute.
Qed.

(** C1, amended: for a condition step whose predicates fail, next-step
    resolution returns the single next entry when there is exactly one (as
    it does for every step with one next entry), the second entry when there
    are two or more, and the empty id when there is none; it returns no
    error.  When the id it returns is empty, the loop marks the instance
    [completed] and returns no error; when it is not empty, the loop does not
    end the workflow at that step: it returns "workflow engine shutting down"
    if the context is cancelled at that point, and otherwise makes its next
    turn with that id as the step to execute. *)
Theorem failing_condition_next_step stepDef result :
  def_Type stepDef = StepTypeCondition →
  Success result = false →
  ∃ next,
    determineNextStep stepDef result = (next, None) ∧
    (def_NextSteps stepDef = [] → next = "") ∧
    (∀ entry, def_NextSteps stepDef = [entry] → next = entry) ∧
    (∀ first second rest, def_NextSteps stepDef = first :: second :: rest →
                          next = second) ∧
    ∀ env turns k w instanceID instance schema currentStepID row w1 instance1,
      instances (act env k w) !! instanceID = Some row →
      inst_Status row = WorkflowStatusRunning →
      findStepDefinition (Steps schema) currentStepID = Some stepDef →
      ExecuteStep (act env k w) instanceID instance stepDef
        = Ok w1 (instance1, result, None) →
      let w2 := updateInstanceCurrentStep w1 instanceID currentStepID in
      (next = "" →
       workflowLoop env (S turns) k w instanceID instance schema currentStepID
         = Returned (completeInstance w2 instanceID) None ∧
       ∃ row', instances (completeInstance w2 instanceID) !! instanceID
                 = Some row' ∧
               inst_Status row' = WorkflowStatusCompleted ∧
               inst_CompletedAt row' = Some (clock (act env k w)) ∧
               inst_ErrorMessage row' = inst_ErrorMessage row) ∧
      (next ≠ "" →
       workflowLoop env (S turns) k w instanceID instance schema currentStepID
         = if done env k
           then Returned w2 (Some "workflow engine shutting down")
           else workflowLoop env turns (S k) w2 instanceID instance1 schema
                  next).
Proof.
  intros Htype Hfail.
  exists (determineNextStep stepDef result).1.
  split.
  { pose proof (determineNextStep_no_error stepDef result) as Herr.
    destruct (determineNextStep stepDef result) as [next err].
    simpl in Herr. by subst err. }
  split; [unfold determineNextStep; by intros ->|].
  split; [unfold determineNextStep; by intros entry ->|].
  split.
  { unfold determineNextStep. intros first second rest ->.
    by rewrite Htype, Hfail. }
  intros env turns k w instanceID instance schema currentStepID row w1
    instance1 Hrow Hrunning Hdef Hexec w2.
  pose proof (workflowLoop_turn env turns k w instanceID instance schema
                currentStepID row stepDef w1 instance1 result Hrow Hrunning
                Hdef Hexec) as Hturn.
  cbv zeta in Hturn. fold w2 in Hturn. split.
  - intros Hnext. rewrite Hnext in Hturn. split; [exact Hturn|].
    destruct (ExecuteStep_Ok _ _ _ _ _ _ _ _ Hexec)
      as (_ & _ & Hclock & f & Hinst).
    assert (Hkeep : instances w1 = instances (act env k w)).
    { eapply ExecuteStep_instances; [exact Hexec|]. by rewrite Htype. }
    subst w2. unfold completeInstance.
    rewrite lookup_update_instance, lookup_updateInstanceCurrentStep, Hkeep,
      Hrow.
    eexists. split; [done|]. simpl. by rewrite Hclock.
  - intros Hnext. apply String.eqb_neq in Hnext. by rewrite Hnext in Hturn.
Qed.

Lemma failing_condition_next_step_witness :
  let instance := running_instance 1 "" in
  let B := condition_step "B" [x_gt_5] ["C"] in
  let schema := {| Steps := [B; log_step "C" []] |} in
  let result := {| Success := false;
                   Data := {[ "reason" := JStr "condition not met" ]};
                   Error := "" |} in
  let w1 := exec_world (ExecuteStep (store_of instance) 7 instance B) in
  determineNextStep B result = ("C", None) ∧
  workflowLoop quiet 2 0 (store_of instance) 7 instance schema "B"
  = workflowLoop quiet 1 1 (updateInstanceCurrentStep w1 7 "B") 7 instance
      schema "C".
Proof.
  intros instance B schema result w1.
  destruct (failing_condition_next_step B result)
    as (next & Hnext & _ & Hone & _ & Hloop); [reflexivity..|].
  rewrite (Hone "C" eq_refl) in Hnext, Hloop.
  split; [exact Hnext|].
  destruct (Hloop quiet 1%nat 0%nat (store_of instance) 7%N instance schema "B"
              instance w1 instance) as [_ Hgo]; [reflexivity..|].
  apply Hgo. discriminate.
Defined.

(** C2, on the code: a running instance of [two_steps] is paused (or
    cancelled) by its handler after step A.  The status check at the head of
    the next turn returns an error, [executeWorkflow] hands it to
    [processInstance], and [failInstance] overwrites the status the handler
    set with [failed] and records the error message. *)
Theorem pause_between_steps_fails_instance :
  let w := store_of (running_instance 10 "") in
  let paused := world_of (processInstance (λ _, Val two_steps)
                            (interrupted PauseInstance 1 7) 5 w 7) in
  let cancelled := world_of (processInstance (λ _, Val two_steps)
                               (interrupted CancelInstance 1 7) 5 w 7) in
  (inst_Status <$> instances (PauseInstance w 7) !! 7%N
     = Some WorkflowStatusPaused) ∧
  (executed paused = ["A"] ∧
   inst_Status <$> instances paused !! 7%N = Some WorkflowStatusFailed ∧
   inst_ErrorMessage <$> instances paused !! 7%N
     = Some "workflow instance status changed to paused") ∧
  (executed cancelled = ["A"] ∧
   inst_Status <$> instances cancelled !! 7%N = Some WorkflowStatusFailed ∧
   inst_ErrorMessage <$> instances cancelled !! 7%N
     = Some "workflow instance status changed to cancelled").
Proof. by vm_compute. Qed.

(** ** Timeouts *)

(** With no retry policy at hand the handler always takes its second
    branch. *)
Lemma HandleStepTimeout_fails w k step :
  HandleStepTimeout w k step = Save w k (timed_out_row (clock w) step).
Proof. reflexivity. Qed.

Lemma foldl_HandleStepTimeout (rows : list (uuid * WorkflowStep)) (w : World) :
  NoDup rows.*1 →
  let w' := foldl (λ w '(k, step), HandleStepTimeout w k step) w rows in
  clock w' = clock w ∧ instances w' = instances w ∧ bus w' = bus w ∧
  (∀ k row, (k, row) ∈ rows →
            steps w' !! k = Some (timed_out_row (clock w) row)) ∧
  (∀ k, k ∉ rows.*1 → steps w' !! k = steps w !! k).
Proof.
  revert w. induction rows as [|[k0 row0] rows IH]; intros w Hnd; simpl.
  - split; [done|]. split; [done|]. split; [done|]. split; [|done].
    intros k row H. by apply elem_of_nil in H.
  - apply NoDup_cons in Hnd as [Hk0 Hnd].
    destruct (IH (HandleStepTimeout w k0 row0) Hnd)
      as (Hclock & Hinst & Hbus & Hin & Hout).
    rewrite HandleStepTimeout_fails in *. simpl in *.
    split; [done|]. split; [done|]. split; [done|]. split.
    + intros k row [[= -> ->]|H]%elem_of_cons; [|by apply Hin].
      rewrite (Hout _ Hk0). simpl. apply lookup_insert_eq.
    + intros k [Hne Hk]%not_elem_of_cons. rewrite (Hout _ Hk). simpl.
      by apply lookup_insert_ne.
Qed.

(** C3, as stated, fails: the step of [stuck_store] has timed out with a
    retry count (0) below the maximum of its definition's policy (3), and the
    sweep leaves it [failed], not [pending], with its retry count still 0;
    and the owning instance is still [running]. *)
Lemma timeout_retry_counterexample :
  let w' := checkTimeouts five_minutes stuck_store in
  (∃ policy row, def_RetryPolicy retried_step = Some policy ∧
                 steps stuck_store !! 3%N = Some row ∧
                 step_StepID row = def_ID retried_step ∧
                 (step_RetryCount row < MaxRetries policy)%Z) ∧
  step_Status <$> steps w' !! 3%N = Some StepStatusFailed ∧
  step_RetryCount <$> steps w' !! 3%N = Some 0%Z ∧
  inst_Status <$> instances w' !! 7%N = Some WorkflowStatusRunning.
Proof.
  split; [|by vm_compute].
  eexists _, _. split; [reflexivity|]. split; [reflexivity|]. by split.
Qed.

(** C3, amended: the sweep marks every step found [running] past the step
    timeout as [failed], with the error "step timed out" and its completion
    time, whatever its retry count is; no retry policy is consulted, so the
    retry count is unchanged and the step is never reset to [pending]; and
    the sweep writes to no instance. *)
Theorem timed_out_step_is_failed config w k row :
  steps w !! k = Some row →
  timed_out (clock w - StepTimeout config * second) row = true →
  let w' := checkTimeouts config w in
  steps w' !! k = Some (timed_out_row (clock w) row) ∧
  step_Status (timed_out_row (clock w) row) = StepStatusFailed ∧
  step_RetryCount (timed_out_row (clock w) row) = step_RetryCount row ∧
  instances w' = instances w.
Proof.
  intros Hk Hout w'. subst w'. unfold checkTimeouts.
  destruct (foldl_HandleStepTimeout
              (find_steps (timed_out (clock w - StepTimeout config * second)) w)
              w (NoDup_find_steps _ _))
    as (_ & Hinst & _ & Hin & _).
  split; [|done]. apply Hin. by apply elem_of_find_steps.
Qed.

Lemma timed_out_step_is_failed_witness :
  step_Status <$> steps (checkTimeouts five_minutes stuck_store) !! 3%N
    = Some StepStatusFailed.
Proof.
  edestruct (timed_out_step_is_failed five_minutes stuck_store 3%N)
    as (Hrow & Hstatus & _); [reflexivity..|].
  cbv zeta in Hrow. rewrite Hrow. simpl. reflexivity.
Defined.

(** ** Wait steps *)

(** C4, as stated, fails: executing the event wait W leaves its record
    [completed], not [running]; and with nothing on the bus but the
    executor's own [step_completed] messages the instance goes on to the next
    step N and completes. *)
Lemma wait_event_counterexample :
  let instance := running_instance 10 "" in
  let W := wait_event_step "W" "payment_received" ["N"] in
  let w1 := exec_world (ExecuteStep (store_of instance) 7 instance W) in
  let w' := world_of (executeWorkflow quiet 5 (store_of instance) 7 instance
                        {| Steps := [W; log_step "N" []] |}) in
  (step_Status ∘ snd <$> first_row (find_steps (is_step_of 7 "W") w1)
     = Some StepStatusCompleted) ∧
  executed w' = ["W"; "N"] ∧
  ev_type <$> bus w' = ["step_completed"; "step_completed"] ∧
  inst_Status <$> instances w' !! 7%N = Some WorkflowStatusCompleted.
Proof. by vm_compute. Qed.

(** C4, amended: executing a wait step whose wait type is "event", with a
    named event, returns success in the calling worker without consulting
    the bus, whatever has been published: [ExecuteStep] leaves the step's
    record [completed], publishes its [step_completed] message and changes
    no instance.  The loop of a running instance does not wait at the step:
    in the same turn it records the step as the current step, the instance
    still [running], and then completes the instance when the step has no
    next entry or its first next entry is empty, returns "workflow engine
    shutting down" when the context is cancelled at that point, and
    otherwise makes its next turn with the first next entry as the step to
    execute. *)
Theorem wait_event_step_completes w instanceID instance stepDef eventName :
  def_Type stepDef = StepTypeWait →
  def_Config stepDef !! "wait_type" = Some (JStr "event") →
  def_Config stepDef !! "event" = Some (JStr eventName) →
  let result := {| Success := true; Data := {[ "event" := JStr eventName ]};
                   Error := "" |} in
  let next := nth 0 (def_NextSteps stepDef) "" in
  ∃ w' k row,
    ExecuteStep w instanceID instance stepDef = Ok w' (instance, result, None) ∧
    first_row (find_steps (is_step_of instanceID (def_ID stepDef)) w')
      = Some (k, row) ∧
    step_Status row = StepStatusCompleted ∧
    bus w' = (bus w ++ [step_event w instanceID (def_ID stepDef) result])%list ∧
    instances w' = instances w ∧
    determineNextStep stepDef result = (next, None) ∧
    ∀ env turns n w0 schema currentStepID row0,
      act env n w0 = w →
      instances w !! instanceID = Some row0 →
      inst_Status row0 = WorkflowStatusRunning →
      findStepDefinition (Steps schema) currentStepID = Some stepDef →
      let w2 := updateInstanceCurrentStep w' instanceID currentStepID in
      workflowLoop env (S turns) n w0 instanceID instance schema currentStepID
        = (if next =? "" then Returned (completeInstance w2 instanceID) None
           else if done env n
                then Returned w2 (Some "workflow engine shutting down")
                else workflowLoop env turns (S n) w2 instanceID instance schema
                       next) ∧
      (∃ row2, instances w2 !! instanceID = Some row2 ∧
               inst_Status row2 = WorkflowStatusRunning ∧
               inst_CurrentStep row2 = currentStepID) ∧
      ∃ row3, instances (completeInstance w2 instanceID) !! instanceID
                = Some row3 ∧
              inst_Status row3 = WorkflowStatusCompleted ∧
              inst_CompletedAt row3 = Some (clock w).
Proof.
  intros Htype Hwait Hevent result next.
  assert (Hexec : ∃ w', ExecuteStep w instanceID instance stepDef
                        = Ok w' (instance, result, None)).
  { unfold ExecuteStep.
    destruct (createOrUpdateStep w instanceID stepDef) as [w1 [k step]].
    cbv zeta. unfold executeByType, executeWaitStep.
    rewrite Htype, Hwait, Hevent. simpl. eauto. }
  destruct Hexec as [w' Hexec].
  destruct (ExecuteStep_Ok _ _ _ _ _ _ _ _ Hexec)
    as ((k & row & Hfirst & Hstatus & _) & Hbus & Hclock & _).
  destruct (ExecuteStep_instances _ _ _ _ _ _ _ _ Hexec) as [Hinst _];
    [by rewrite Htype|].
  assert (Hnext : determineNextStep stepDef result = (next, None)).
  { unfold determineNextStep. rewrite Htype.
    by destruct (def_NextSteps stepDef) as [|? [|? ?]]. }
  exists w', k, row. do 5 (split; [done|]). split; [done|].
  intros env turns n w0 schema currentStepID row0 Hact Hrow Hrunning Hdef w2.
  subst w. split; [|split].
  - pose proof (workflowLoop_turn env turns n w0 instanceID instance schema
                  currentStepID row0 stepDef w' instance result Hrow Hrunning
                  Hdef Hexec) as Hturn.
    cbv zeta in Hturn. by rewrite Hnext in Hturn.
  - subst w2. rewrite lookup_updateInstanceCurrentStep, Hinst, Hrow.
    eexists. split; [done|]. by split.
  - subst w2. unfold completeInstance.
    rewrite lookup_update_instance, lookup_updateInstanceCurrentStep, Hinst,
      Hrow.
    eexists. split; [done|]. simpl. by rewrite Hclock.
Qed.

Lemma wait_event_step_completes_witness :
  let instance := running_instance 10 "" in
  let W := wait_event_step "W" "payment_received" ["N"] in
  let schema := {| Steps := [W; log_step "N" []] |} in
  ∃ w' k row,
    ExecuteStep (store_of instance) 7 instance W
    = Ok w' (instance,
             {| Success := true;
                Data := {[ "event" := JStr "payment_received" ]};
                Error := "" |}, None) ∧
    first_row (find_steps (is_step_of 7 "W") w') = Some (k, row) ∧
    step_Status row = StepStatusCompleted ∧
    workflowLoop quiet 2 0 (store_of instance) 7 instance schema "W"
    = workflowLoop quiet 1 1 (updateInstanceCurrentStep w' 7 "W") 7 instance
        schema "N".
Proof.
  intros instance W schema.
  destruct (wait_event_step_completes (store_of instance) 7 instance W
              "payment_received")
    as (w' & k & row & Hexec & Hfirst & Hstatus & _ & _ & _ & Hloop);
    [reflexivity..|].
  exists w', k, row. do 3 (split; [assumption|]).
  destruct (Hloop quiet 1%nat 0%nat (store_of instance) schema "W" instance)
    as (Hturn & _); [reflexivity..|].
  exact Hturn.
Defined.

(** ** One worker per instance *)

(** The test of [processQueue] works for an instance whose worker has made
    its [Store]: the id is dropped and no goroutine is started. *)
Lemma processQueue_marked (s : Scheduler.state) instanceID rest :
  Scheduler.queue s = instanceID :: rest →
  instanceID ∈ Scheduler.instances s →
  ∃ s', Scheduler.processQueue s = Some s' ∧
        Scheduler.queue s' = rest ∧
        Scheduler.workers s' = Scheduler.workers s ∧
        Scheduler.instances s' = Scheduler.instances s.
Proof.
  intros Hq Hin. unfold Scheduler.processQueue. rewrite Hq.
  rewrite decide_True by done. by eexists.
Qed.

(** C5, on the code: instance 7 is queued twice (a start and a wake-up, say).
    [processQueue] receives the first id and starts a goroutine; the
    goroutine has not reached its [Store] when [processQueue] receives the
    second id, finds the map without 7 and starts a second goroutine.  Both
    then make their [Store] and work on instance 7 together. *)
Theorem two_workers_for_one_instance :
  ∃ s,
    Scheduler.schedule 100 Scheduler.init
      [Scheduler.Enqueue 7; Scheduler.Enqueue 7;
       Scheduler.Receive; Scheduler.Receive;
       Scheduler.Store 0; Scheduler.Store 1] = Some s ∧
    Scheduler.workers s = [(7%N, Scheduler.Marked); (7%N, Scheduler.Marked)] ∧
    Scheduler.executing 7 s = 2%nat.
Proof. eexists. split; [reflexivity|]. by split. Qed.

(** ** Resuming at [current_step] *)







(** ** The panic of an equality on arrays

    When a condition step compares two arrays (or two objects) with [eq] or
    [ne], [ExecuteStep] does not return: the goroutine dies in the
    comparison, after the step record was saved as [running]. *)
Lemma ExecuteStep_array_equality_panics :
  let w := store_of tagged_instance in
  let B := condition_step "B" [tags_eq_vip] ["C"; "D"] in
  ∃ w', ExecuteStep w 7 tagged_instance B = Crash w' ∧
        (step_Status ∘ snd <$> first_row (find_steps (is_step_of 7 "B") w')
           = Some StepStatusRunning).
Proof. eexists. split; [reflexivity|]. by vm_compute. Qed.

(** Whenever the persisted status is not [running] at the head of a turn,
    the loop returns the error that [processInstance] turns into a
    failure. *)
Lemma workflowLoop_status_changed env turns k w instanceID instance schema
    currentStepID row :
  instances (act env k w) !! instanceID = Some row →
  inst_Status row ≠ WorkflowStatusRunning →
  workflowLoop env (S turns) k w instanceID instance schema currentStepID
  = Returned (act env k w)
      (Some ("workflow instance status changed to "
             +:+ WorkflowStatus_string (inst_Status row))).
Proof.
  intros Hrow Hstatus. cbn [workflowLoop]. unfold checkInstanceStatus.
  rewrite Hrow.
  destruct (WorkflowStatus_eqb (inst_Status row) WorkflowStatusRunning) eqn:Heq;
    [|done].
  by apply WorkflowStatus_eqb_eq in Heq.
Qed.

(** * Further properties of the engine *)

(** ** What a step may change *)

Lemma createOrUpdateStep_steps w instanceID stepDef :
  let '(w1, (k, step)) := createOrUpdateStep w instanceID stepDef in
  steps w1 = <[k := step]> (steps w) ∧
  match first_row (find_steps (is_step_of instanceID (def_ID stepDef)) w) with
  | Some (k0, _) => k = k0 ∧ k ∈ dom (steps w)
  | None => k = fresh (dom (steps w)) ∧ k ∉ dom (steps w)
  end.
Proof.
  unfold createOrUpdateStep.
  destruct (first_row (find_steps _ w)) as [[k row]|] eqn:Hfirst; simpl.
  - apply first_row_Some in Hfirst as (Hk & _).
    split; [by rewrite insert_id|]. split; [done|].
    apply elem_of_dom. eauto.
  - split; [done|]. split; [done|]. apply is_fresh.
Qed.

Lemma is_step_of_true instanceID stepID row :
  is_step_of instanceID stepID row = true ↔
  step_InstanceID row = instanceID ∧ step_StepID row = stepID.
Proof.
  unfold is_step_of. rewrite andb_true_iff, N.eqb_eq, String.eqb_eq. done.
Qed.

(** The steps table after a call of [ExecuteStep] that returns. *)
Lemma ExecuteStep_steps w instanceID instance stepDef w' out :
  ExecuteStep w instanceID instance stepDef = Ok w' out →
  ∃ k final,
    steps w' = <[k := final]> (steps w) ∧
    step_InstanceID final = instanceID ∧ step_StepID final = def_ID stepDef ∧
    match first_row (find_steps (is_step_of instanceID (def_ID stepDef)) w) with
    | Some (k0, row0) =>
      k = k0 ∧ dom (steps w') = dom (steps w) ∧
      step_RetryCount final = step_RetryCount row0
    | None => (k ∉ dom (steps w)) ∧ dom (steps w') = {[k]} ∪ dom (steps w)
    end.
Proof.
  destruct out as [[instance' result] err]. intros Hexec.
  apply ExecuteStep_inv in Hexec
    as (w1 & k & step & w2 & r & final & Hcreate & Hexec & -> & Hretry & _
        & Hid & Hsid & _).
  pose proof (createOrUpdateStep_steps w instanceID stepDef) as Hsteps.
  pose proof (createOrUpdateStep_first w instanceID stepDef) as Hstep.
  rewrite Hcreate in Hsteps, Hstep. destruct Hsteps as [Hsteps Hk].
  simpl in Hstep. apply first_row_Some in Hstep as (_ & HP & _).
  apply is_step_of_true in HP as [HPi HPs].
  apply executeByType_world in Hexec as (Hsteps2 & _).
  assert (Heq : steps (publishStepEvent (Save w2 k final) "step_completed"
                         instanceID (def_ID stepDef) (Some result))
                = <[k := final]> (steps w)).
  { simpl. rewrite Hsteps2. simpl. rewrite Hsteps.
    by rewrite !insert_insert_eq. }
  exists k, final. split; [done|]. split; [congruence|]. split; [congruence|].
  rewrite Heq, dom_insert_L.
  unfold createOrUpdateStep in Hcreate.
  destruct (first_row (find_steps _ w)) as [[k0 row0]|] eqn:Hfirst.
  - destruct Hk as [-> Hdom]. simplify_eq.
    split; [done|]. split; [|done].
    apply subseteq_union_1_L. by apply singleton_subseteq_l.
  - destruct Hk as [-> Hdom]. done.
Qed.

(** X3. A call of [ExecuteStep] that returns has written one row of the
    steps table, the record of its step: the record found for this step of
    this instance when there is one (its retry count is kept), a new row
    otherwise.  Every other row is as it was, and no row is removed. *)
Theorem ExecuteStep_writes_one_row w instanceID instance stepDef w' out :
  ExecuteStep w instanceID instance stepDef = Ok w' out →
  ∃ k final,
    steps w' = <[k := final]> (steps w) ∧
    step_InstanceID final = instanceID ∧ step_StepID final = def_ID stepDef ∧
    match first_row (find_steps (is_step_of instanceID (def_ID stepDef)) w) with
    | Some (k0, row0) =>
      k = k0 ∧ dom (steps w') = dom (steps w) ∧
      step_RetryCount final = step_RetryCount row0
    | None => (k ∉ dom (steps w)) ∧ dom (steps w') = {[k]} ∪ dom (steps w)
    end.
Proof. apply ExecuteStep_steps. Qed.

Lemma ExecuteStep_writes_one_row_witness :
  let w := store_of (running_instance 10 "") in
  let w' := exec_world (ExecuteStep w 7 (running_instance 10 "")
                          (log_step "A" ["B"])) in
  ∃ k final, steps w' = <[k := final]> (steps w) ∧ (k ∉ dom (steps w)).
Proof.
  intros w w'. subst w'.
  destruct (ExecuteStep w 7 (running_instance 10 "") (log_step "A" ["B"]))
    as [w' out|w'] eqn:Hexec; [|vm_compute in Hexec; discriminate].
  destruct (ExecuteStep_writes_one_row _ _ _ _ _ _ Hexec)
    as (k & final & Hsteps & _ & _ & Hfirst).
  change (first_row _) with (@None (uuid * WorkflowStep)) in Hfirst.
  exists k, final. split; [exact Hsteps|]. apply Hfirst.
Defined.

(** X4. Executing a step again re-uses its record: after a first execution
    that returned, a second execution of the same step for the same instance
    adds no row to the steps table and writes the row the first one wrote,
    keeping its retry count. *)
Theorem ExecuteStep_reuses_record w instanceID instance stepDef w1 out1
    instance2 w2 out2 :
  ExecuteStep w instanceID instance stepDef = Ok w1 out1 →
  ExecuteStep w1 instanceID instance2 stepDef = Ok w2 out2 →
  ∃ k row1 row2,
    first_row (find_steps (is_step_of instanceID (def_ID stepDef)) w1)
      = Some (k, row1) ∧
    steps w2 = <[k := row2]> (steps w1) ∧
    dom (steps w2) = dom (steps w1) ∧
    step_RetryCount row2 = step_RetryCount row1.
Proof.
  destruct out1 as [[instance1 result1] err1]. intros Hexec1 Hexec2.
  destruct (ExecuteStep_Ok _ _ _ _ _ _ _ _ Hexec1)
    as ((k & row1 & Hfirst & _) & _).
  destruct (ExecuteStep_steps _ _ _ _ _ _ Hexec2)
    as (k2 & row2 & Hsteps & _ & _ & Hcase).
  rewrite Hfirst in Hcase. destruct Hcase as (-> & Hdom & Hretry).
  by exists k, row1, row2.
Qed.

Lemma ExecuteStep_reuses_record_witness :
  let w := store_of (running_instance 10 "") in
  let w1 := exec_world (ExecuteStep w 7 (running_instance 10 "")
                          (log_step "A" ["B"])) in
  let w2 := exec_world (ExecuteStep w1 7 (running_instance 10 "")
                          (log_step "A" ["B"])) in
  dom (steps w2) = dom (steps w1).
Proof.
  intros w w1 w2. subst w1 w2.
  destruct (ExecuteStep w 7 (running_instance 10 "") (log_step "A" ["B"]))
    as [w1 out1|w1] eqn:Hexec1; [|vm_compute in Hexec1; discriminate].
  cbn [exec_world].
  destruct (ExecuteStep_returns w1 7 (running_instance 10 "")
              (log_step "A" ["B"])) as (w2 & out2 & Hexec2); [discriminate|].
  rewrite Hexec2. cbn [exec_world].
  destruct (ExecuteStep_reuses_record _ _ _ _ _ _ _ _ _ Hexec1 Hexec2)
    as (k & row1 & row2 & _ & _ & Hdom & _).
  exact Hdom.
Defined.

(** X1. The [update_variables] action merges its updates into the variables
    of the loaded instance, an update winning over the old value of its key
    and the other keys keeping theirs, and writes the merged map to the row
    of the instance, whose other columns are kept; no other instance row
    changes. *)
Theorem update_variables_merges w instanceID instance stepDef updates :
  def_Type stepDef = StepTypeAction →
  def_Config stepDef !! "action" = Some (JStr "update_variables") →
  def_Config stepDef !! "updates" = Some (JObj updates) →
  ∃ w' instance',
    ExecuteStep w instanceID instance stepDef
      = Ok w' (instance',
               {| Success := true;
                  Data := {[ "updated_variables" := JObj updates ]};
                  Error := "" |}, None) ∧
    (∀ key, inst_Variables instance' !! key
            = match updates !! key with
              | Some value => Some value
              | None => inst_Variables instance !! key
              end) ∧
    inst_Status instance' = inst_Status instance ∧
    inst_CurrentStep instance' = inst_CurrentStep instance ∧
    (∀ row, instances w !! instanceID = Some row →
       ∃ row', instances w' !! instanceID = Some row' ∧
               inst_Variables row' = inst_Variables instance' ∧
               inst_Status row' = inst_Status row ∧
               inst_CurrentStep row' = inst_CurrentStep row ∧
               inst_CompletedAt row' = inst_CompletedAt row ∧
               inst_ErrorMessage row' = inst_ErrorMessage row) ∧
    (instances w !! instanceID = None → instances w' !! instanceID = None) ∧
    ∀ other, other ≠ instanceID → instances w' !! other = instances w !! other.
Proof.
  intros Htype Haction Hupdates.
  exists (exec_world (ExecuteStep w instanceID instance stepDef)),
         (set_Variables instance (updates ∪ inst_Variables instance)).
  unfold ExecuteStep.
  pose proof (createOrUpdateStep_world w instanceID stepDef) as Hw.
  destruct (createOrUpdateStep w instanceID stepDef) as [w1 [k step]].
  destruct Hw as (_ & Hinst & _). simpl in Hinst.
  cbv zeta. unfold executeByType, executeActionStep, executeUpdateVariables.
  rewrite Htype, Haction, Hupdates. simpl.
  split; [done|]. split.
  { intros key. rewrite lookup_union.
    by destruct (updates !! key), (inst_Variables instance !! key). }
  split; [done|]. split; [done|]. rewrite Hinst. split; [|split].
  - intros row Hrow. rewrite lookup_alter_eq, Hrow. eexists. by split.
  - intros Hnone. by rewrite lookup_alter_eq, Hnone.
  - intros other Hne. by apply lookup_alter_ne.
Qed.

(** The instance with [x = 1] gets [x = 10] and a new key [y]; its row in
    the store does as well, and stays [running]. *)
Lemma update_variables_merges_witness :
  let instance := running_instance 1 "" in
  let U := {| def_ID := "U"; def_Name := "U"; def_Type := StepTypeAction;
              def_Config := {[ "action" := JStr "update_variables";
                               "updates" := JObj {[ "x" := JNum 10;
                                                    "y" := JBool true ]} ]};
              def_NextSteps := []; def_Conditions := [];
              def_RetryPolicy := None |} in
  ∃ w' instance' result row',
    ExecuteStep (store_of instance) 7 instance U = Ok w' (instance', result, None) ∧
    inst_Variables instance' !! "x" = Some (JNum 10) ∧
    inst_Variables instance' !! "y" = Some (JBool true) ∧
    instances w' !! 7%N = Some row' ∧
    inst_Variables row' = inst_Variables instance' ∧
    inst_Status row' = WorkflowStatusRunning.
Proof.
  intros instance U.
  destruct (update_variables_merges (store_of instance) 7 instance U
              {[ "x" := JNum 10; "y" := JBool true ]})
    as (w' & instance' & Hexec & Hvars & _ & _ & Hrow & _); [reflexivity..|].
  destruct (Hrow instance eq_refl) as (row' & Hrow' & Hv & Hs & _).
  eexists w', instance', _, row'. split; [exact Hexec|].
  split; [by rewrite Hvars|]. split; [by rewrite Hvars|].
  split; [exact Hrow'|]. split; [exact Hv|exact Hs].
Defined.

(** X2. A step that is not an [update_variables] action with a map of
    updates changes no instance row and hands back the loaded instance as it
    got it: its effect on the store is its own step record. *)
Theorem other_steps_keep_instances w instanceID instance stepDef w' instance'
    result err :
  ExecuteStep w instanceID instance stepDef = Ok w' (instance', result, err) →
  ¬ (def_Type stepDef = StepTypeAction ∧
     def_Config stepDef !! "action" = Some (JStr "update_variables") ∧
     ∃ updates, def_Config stepDef !! "updates" = Some (JObj updates)) →
  instances w' = instances w ∧ instance' = instance ∧
  templates w' = templates w.
Proof.
  intros Hexec Hnot.
  apply ExecuteStep_inv in Hexec
    as (w1 & k & step & w2 & r & final & Hcreate & Hexec & -> & _).
  pose proof (createOrUpdateStep_world w instanceID stepDef) as Hw.
  rewrite Hcreate in Hw. destruct Hw as (Htmpl & Hinst & _). simpl in *.
  apply executeByType_cases in Hexec
    as [(-> & -> & _)|(updates & ? & ? & ? & _)].
  - simpl. by rewrite Hinst, Htmpl.
  - exfalso. apply Hnot. eauto.
Qed.

Lemma other_steps_keep_instances_witness :
  let w := store_of (running_instance 10 "") in
  instances (exec_world (ExecuteStep w 7 (running_instance 10 "")
                           (wait_event_step "W" "go" []))) = instances w.
Proof.
  intros w.
  destruct (ExecuteStep w 7 (running_instance 10 "")
              (wait_event_step "W" "go" []))
    as [w' [[instance' result] err]|w'] eqn:Hexec;
    [|vm_compute in Hexec; discriminate].
  destruct (other_steps_keep_instances _ _ _ _ _ _ _ _ Hexec) as (Hi & _).
  - intros (Htype & _). vm_compute in Htype. discriminate.
  - exact Hi.
Defined.

(** ** How the loop ends *)

(** X5. [findStepDefinition] yields the first step of the schema that has
    the id, so a later step with the same id is never reached; it yields
    nothing exactly when no step has the id. *)
Theorem findStepDefinition_first steps stepID :
  match findStepDefinition steps stepID with
  | Some stepDef =>
    ∃ before after,
      steps = (before ++ stepDef :: after)%list ∧ def_ID stepDef = stepID ∧
      ∀ other, other ∈ before → def_ID other ≠ stepID
  | None => ∀ other, other ∈ steps → def_ID other ≠ stepID
  end.
Proof.
  induction steps as [|step steps IH]; simpl.
  - intros other H. by apply elem_of_nil in H.
  - destruct (String.eqb_spec (def_ID step) stepID) as [Heq|Hne].
    + exists [], steps. split; [done|]. split; [done|].
      intros other H. by apply elem_of_nil in H.
    + destruct (findStepDefinition steps stepID) as [stepDef|].
      * destruct IH as (before & after & -> & Hid & Hbefore).
        exists (step :: before), after. split; [done|]. split; [done|].
        intros other [->|H]%elem_of_cons; [done|by apply Hbefore].
      * intros other [->|H]%elem_of_cons; [done|by apply IH].
Qed.

Lemma workflowLoop_step_not_found env turns k w instanceID instance schema
    currentStepID row :
  instances (act env k w) !! instanceID = Some row →
  inst_Status row = WorkflowStatusRunning →
  findStepDefinition (Steps schema) currentStepID = None →
  workflowLoop env (S turns) k w instanceID instance schema currentStepID
  = Returned (act env k w)
      (Some ("step definition not found: " +:+ currentStepID)).
Proof.
  intros Hrow Hrunning Hnone. cbn [workflowLoop].
  by rewrite (checkInstanceStatus_running _ _ _ Hrow Hrunning), Hnone.
Qed.

Lemma lookup_failInstance w instanceID errorMsg :
  instances (failInstance w instanceID errorMsg) !! instanceID
  = (λ row, set_instance row WorkflowStatusFailed (inst_CurrentStep row)
              (Some (clock w)) errorMsg) <$> instances w !! instanceID.
Proof. unfold failInstance. apply lookup_update_instance. Qed.

(** X6. A [current_step] that names no step of a schema that has steps is
    fatal: the worker executes nothing and publishes nothing, and marks the
    instance [failed], with [completed_at] set to the current time and the
    error message "step definition not found: <id>"; the other columns of
    the row are kept. *)
Theorem dangling_current_step_fails parseSchema env turns w instanceID row
    schema :
  instances w !! instanceID = Some row →
  inst_Status row = WorkflowStatusRunning →
  parseSchema (templateSchema w row) = Val schema →
  Steps schema ≠ [] →
  inst_CurrentStep row ≠ "" →
  findStepDefinition (Steps schema) (inst_CurrentStep row) = None →
  instances (act env 0 w) !! instanceID = Some row →
  let w0 := act env 0 w in
  let message := "step definition not found: " +:+ inst_CurrentStep row in
  ∃ w',
    processInstance parseSchema env (S turns) w instanceID = Returned w' tt ∧
    (∃ row',
       instances w' !! instanceID = Some row' ∧
       inst_Status row' = WorkflowStatusFailed ∧
       inst_CompletedAt row' = Some (clock w0) ∧
       inst_ErrorMessage row' = message ∧
       inst_CurrentStep row' = inst_CurrentStep row ∧
       inst_Variables row' = inst_Variables row ∧
       inst_StartedAt row' = inst_StartedAt row) ∧
    (∀ other, other ≠ instanceID →
              instances w' !! other = instances w0 !! other) ∧
    steps w' = steps w0 ∧
    bus w' = bus w0.
Proof.
  intros Hrow Hrunning Hparse Hsteps Hcur Hnone Hrow0 w0 message.
  exists (failInstance w0 instanceID message). subst w0 message.
  split.
  { unfold processInstance. rewrite Hrow, Hrunning, Hparse. simpl.
    unfold executeWorkflow.
    destruct (Steps schema) as [|first others] eqn:Hschema; [done|].
    apply String.eqb_neq in Hcur. rewrite Hcur.
    rewrite (workflowLoop_step_not_found env turns 0 w instanceID row schema
               (inst_CurrentStep row) row Hrow0 Hrunning);
      [done|by rewrite Hschema]. }
  split.
  { rewrite lookup_failInstance, Hrow0. eexists. split; [done|].
    by repeat split. }
  split; [|done].
  intros other Hne. simpl. by apply lookup_alter_ne.
Qed.

Lemma dangling_current_step_fails_witness :
  let w := store_of (running_instance 10 "Z") in
  ∃ w' row',
    processInstance (λ _, Val two_steps) quiet 1 w 7 = Returned w' tt ∧
    instances w' !! 7%N = Some row' ∧
    inst_Status row' = WorkflowStatusFailed ∧
    inst_CompletedAt row' = Some 5000000000%Z ∧
    inst_ErrorMessage row' = "step definition not found: Z" ∧
    bus w' = [].
Proof.
  intros w.
  destruct (dangling_current_step_fails (λ _, Val two_steps) quiet 0 w 7
              (running_instance 10 "Z") two_steps)
    as (w' & Hp & (row' & Hrow' & Hstatus & Hcompleted & Hmessage & _) & _ & _
        & Hbus);
    [reflexivity|reflexivity|reflexivity|discriminate|discriminate
    |reflexivity|reflexivity|].
  exists w', row'. split; [exact Hp|]. split; [exact Hrow'|].
  split; [exact Hstatus|]. split; [exact Hcompleted|].
  split; [exact Hmessage|exact Hbus].
Defined.

(** A step that returns an error has not touched the instances. *)
Lemma ExecuteStep_error_keeps_instances w instanceID instance stepDef w'
    instance' result e :
  ExecuteStep w instanceID instance stepDef
    = Ok w' (instance', result, Some e) →
  instances w' = instances w ∧ clock w' = clock w ∧
  result = {| Success := false; Data := ∅; Error := e |}.
Proof.
  intros Hexec.
  pose proof (ExecuteStep_Ok _ _ _ _ _ _ _ _ Hexec) as (_ & _ & Hclock & _).
  apply ExecuteStep_inv in Hexec
    as (w1 & k & step & w2 & r & final & Hcreate & Hexec & Hw' & _ & _ & _ & _
        & Hr).
  pose proof (createOrUpdateStep_world w instanceID stepDef) as Hw.
  rewrite Hcreate in Hw. destruct Hw as (_ & Hinst & _). simpl in Hinst.
  destruct r as [res|e']; [by destruct Hr as (_ & [=] & _)|].
  destruct Hr as (-> & [= ->] & _).
  apply executeByType_cases in Hexec
    as [(-> & _)|(updates & _ & _ & _ & _ & _ & [=])].
  subst w'. simpl. by rewrite Hinst.
Qed.

(** X7. When the first step of a fresh instance returns an error (a missing
    configuration key, an unsupported action or step type), the worker
    stops there: the instance is marked [failed] with the error message
    "step execution failed: <error>", its [current_step] is not advanced,
    and the record of the step is [failed]. *)
Theorem step_error_fails_instance parseSchema env turns w instanceID row
    schema first others w1 instance1 result e :
  instances w !! instanceID = Some row →
  inst_Status row = WorkflowStatusRunning →
  inst_CurrentStep row = "" →
  parseSchema (templateSchema w row) = Val schema →
  Steps schema = first :: others →
  instances (act env 0 w) !! instanceID = Some row →
  ExecuteStep (act env 0 w) instanceID row first
    = Ok w1 (instance1, result, Some e) →
  let message := "step execution failed: " +:+ e in
  let w' := failInstance w1 instanceID message in
  processInstance parseSchema env (S turns) w instanceID = Returned w' tt ∧
  instances w' !! instanceID
    = Some (set_instance row WorkflowStatusFailed "" (Some (clock (act env 0 w)))
              message) ∧
  ∃ k record,
    first_row (find_steps (is_step_of instanceID (def_ID first)) w')
      = Some (k, record) ∧
    step_Status record = StepStatusFailed.
Proof.
  intros Hrow Hrunning Hcur Hparse Hsteps Hrow0 Hexec message w'.
  subst message w'.
  destruct (ExecuteStep_error_keeps_instances _ _ _ _ _ _ _ _ Hexec)
    as (Hinst & Hclock & _).
  destruct (ExecuteStep_Ok _ _ _ _ _ _ _ _ Hexec)
    as ((k & record & Hfirst & Hstatus & _) & _).
  split; [|split].
  - unfold processInstance. rewrite Hrow, Hrunning, Hparse. simpl.
    unfold executeWorkflow. rewrite Hsteps, Hcur.
    change ("" =? "") with true. cbv iota. cbn [workflowLoop].
    rewrite (checkInstanceStatus_running _ _ _ Hrow0 Hrunning), Hsteps.
    cbn [findStepDefinition]. rewrite String.eqb_refl, Hexec. done.
  - rewrite lookup_failInstance, Hinst, Hrow0, Hclock. simpl. by rewrite Hcur.
  - exists k, record. split; [exact Hfirst|done].
Qed.

Lemma step_error_fails_instance_witness :
  let w := store_of (running_instance 10 "") in
  let w' := world_of (processInstance
                        (λ _, Val {| Steps := [unknown_step "Z"] |})
                        quiet 1 w 7) in
  inst_Status <$> instances w' !! 7%N = Some WorkflowStatusFailed ∧
  inst_ErrorMessage <$> instances w' !! 7%N
    = Some "step execution failed: unsupported step type: teleport".
Proof.
  intros w w'. subst w'.
  destruct (ExecuteStep w 7 (running_instance 10 "") (unknown_step "Z"))
    as [w1 [[instance1 result] [e|]]|w1] eqn:Hexec;
    [|vm_compute in Hexec; discriminate..].
  assert (He : e = "unsupported step type: teleport")
    by (vm_compute in Hexec; congruence).
  destruct (step_error_fails_instance
              (λ _, Val {| Steps := [unknown_step "Z"] |}) quiet 0 w 7
              (running_instance 10 "") {| Steps := [unknown_step "Z"] |}
              (unknown_step "Z") [] w1 instance1 result e)
    as (Hp & Hi & _);
    [reflexivity|reflexivity|reflexivity|reflexivity|reflexivity|reflexivity
    |exact Hexec|].
  rewrite Hp. cbn [world_of]. rewrite Hi, He. by split.
Defined.

(** X8. A shutdown of the engine between two steps fails the instance: when
    the context is cancelled as the loop reaches its wait after a step that
    has a successor, the worker returns "workflow engine shutting down" and
    the instance is marked [failed] with that message, its [current_step]
    being the step just executed. *)
Theorem shutdown_fails_instance parseSchema env turns w instanceID row
    schema first others w1 instance1 result :
  instances w !! instanceID = Some row →
  inst_Status row = WorkflowStatusRunning →
  inst_CurrentStep row = "" →
  parseSchema (templateSchema w row) = Val schema →
  Steps schema = first :: others →
  instances (act env 0 w) !! instanceID = Some row →
  ExecuteStep (act env 0 w) instanceID row first
    = Ok w1 (instance1, result, None) →
  (determineNextStep first result).1 ≠ "" →
  done env 0 = true →
  let w' := failInstance (updateInstanceCurrentStep w1 instanceID (def_ID first))
              instanceID "workflow engine shutting down" in
  processInstance parseSchema env (S turns) w instanceID = Returned w' tt ∧
  ∃ row', instances w' !! instanceID = Some row' ∧
          inst_Status row' = WorkflowStatusFailed ∧
          inst_ErrorMessage row' = "workflow engine shutting down" ∧
          inst_CurrentStep row' = def_ID first.
Proof.
  intros Hrow Hrunning Hcur Hparse Hsteps Hrow0 Hexec Hnext Hdone w'.
  subst w'. split.
  - unfold processInstance. rewrite Hrow, Hrunning, Hparse. simpl.
    unfold executeWorkflow. rewrite Hsteps, Hcur.
    change ("" =? "") with true. cbv iota. cbn [workflowLoop].
    rewrite (checkInstanceStatus_running _ _ _ Hrow0 Hrunning), Hsteps.
    cbn [findStepDefinition]. rewrite String.eqb_refl, Hexec.
    destruct (determineNextStep first result) as [nextStepID [err|]] eqn:Hd.
    { unfold determineNextStep in Hd. by repeat case_match. }
    simpl in Hnext. apply String.eqb_neq in Hnext. by rewrite Hnext, Hdone.
  - destruct (ExecuteStep_Ok _ _ _ _ _ _ _ _ Hexec) as (_ & _ & _ & f & Hinst).
    rewrite lookup_failInstance. unfold updateInstanceCurrentStep.
    rewrite lookup_update_instance, Hinst, lookup_alter_eq, Hrow0. simpl.
    eexists. by repeat split.
Qed.

Lemma shutdown_fails_instance_witness :
  let w := store_of (running_instance 10 "") in
  let stopping := {| act := λ _ w, w; done := λ _, true |} in
  let w' := world_of (processInstance (λ _, Val two_steps) stopping 1 w 7) in
  inst_Status <$> instances w' !! 7%N = Some WorkflowStatusFailed.
Proof.
  intros w stopping w'. subst w'.
  destruct (ExecuteStep w 7 (running_instance 10 "") (log_step "A" ["B"]))
    as [w1 [[instance1 result] [e|]]|w1] eqn:Hexec;
    [vm_compute in Hexec; discriminate| |vm_compute in Hexec; discriminate].
  destruct (shutdown_fails_instance (λ _, Val two_steps) stopping 0 w 7
              (running_instance 10 "") two_steps (log_step "A" ["B"])
              [log_step "B" []] w1 instance1 result)
    as (Hp & row' & Hrow' & Hstatus & _);
    [reflexivity|reflexivity|reflexivity|reflexivity|reflexivity|reflexivity
    |exact Hexec|discriminate|reflexivity|].
  rewrite Hp. cbn [world_of]. rewrite Hrow'. simpl. by rewrite Hstatus.
Defined.

Lemma workflowLoop_quiet_returned turns k w instanceID instance schema
    currentStepID w' err :
  workflowLoop quiet turns k w instanceID instance schema currentStepID
    = Returned w' err →
  is_Some (instances w !! instanceID) →
  is_Some (instances w' !! instanceID) ∧
  (err = None →
   ∃ row', instances w' !! instanceID = Some row' ∧
           inst_Status row' = WorkflowStatusCompleted ∧
           is_Some (inst_CompletedAt row') ∧
           inst_ErrorMessage row'
             = default "" (inst_ErrorMessage <$> instances w !! instanceID)).
Proof.
  revert k w instance currentStepID.
  induction turns as [|turns IH]; intros k w instance currentStepID;
    cbn [workflowLoop]; [done|].
  change (act quiet k w) with w. change (done quiet k) with false.
  destruct (checkInstanceStatus w instanceID);
    [by intros [= <- <-] ?|].
  destruct (findStepDefinition (Steps schema) currentStepID) as [stepDef|];
    [|by intros [= <- <-] ?].
  destruct (ExecuteStep w instanceID instance stepDef)
    as [w1 [[instance1 result] err1]|w1] eqn:Hexec; [|done].
  assert (Hlook : ∃ f, instances w1 !! instanceID
                       = f <$> instances w !! instanceID ∧
                  ∀ row, inst_ErrorMessage (f row) = inst_ErrorMessage row).
  { apply ExecuteStep_inv in Hexec
      as (w0 & k0 & step & w2 & r & final & Hcreate & Hexec & -> & _).
    pose proof (createOrUpdateStep_world w instanceID stepDef) as Hw.
    rewrite Hcreate in Hw. destruct Hw as (_ & Hinst & _). simpl in Hinst.
    apply executeByType_cases in Hexec
      as [(-> & _)|(updates & _ & _ & _ & _ & -> & _)].
    - exists (λ row, row). simpl. rewrite Hinst. split; [|done].
      by destruct (instances w !! instanceID).
    - eexists. simpl. rewrite Hinst. split; [apply lookup_alter_eq|done]. }
  destruct Hlook as (f & Hlook & Hf).
  destruct err1 as [e|].
  { intros [= <- <-] [row Hrow]. rewrite Hlook, Hrow. by split; [eexists|]. }
  destruct (determineNextStep stepDef result) as [nextStepID [e|]] eqn:Hnext.
  { unfold determineNextStep in Hnext. by repeat case_match. }
  destruct (nextStepID =? "").
  - intros [= <- <-] [row Hrow].
    unfold completeInstance, updateInstanceCurrentStep.
    rewrite !lookup_update_instance, Hlook, Hrow. simpl.
    split; [by eexists|]. intros _. eexists. split; [done|].
    repeat split; [by eexists|apply Hf].
  - intros Hloop [row Hrow].
    apply IH in Hloop as [Hsome Hnone].
    + split; [done|]. intros Herr. destruct (Hnone Herr) as (row' & ? & ? & ? & Hmsg).
      exists row'. repeat split; [done..|]. rewrite Hmsg.
      unfold updateInstanceCurrentStep.
      rewrite lookup_update_instance, Hlook, Hrow. simpl. apply Hf.
    + unfold updateInstanceCurrentStep.
      rewrite lookup_update_instance, Hlook, Hrow. by eexists.
Qed.

(** X9. Left alone by the other actors, a worker that returns from a running
    instance leaves it in a final status: [completed] with no new error
    message, or [failed] with one; in both cases [completed_at] is set. *)
Theorem worker_leaves_final_status parseSchema turns w instanceID row w' :
  instances w !! instanceID = Some row →
  inst_Status row = WorkflowStatusRunning →
  processInstance parseSchema quiet turns w instanceID = Returned w' tt →
  ∃ row',
    instances w' !! instanceID = Some row' ∧
    is_Some (inst_CompletedAt row') ∧
    ((inst_Status row' = WorkflowStatusCompleted ∧
      inst_ErrorMessage row' = inst_ErrorMessage row) ∨
     inst_Status row' = WorkflowStatusFailed).
Proof.
  intros Hrow Hrunning. unfold processInstance. rewrite Hrow, Hrunning. simpl.
  destruct (parseSchema (templateSchema w row)) as [schema|e].
  - destruct (executeWorkflow quiet turns w instanceID row schema)
      as [w1 [e|]|w1|w1] eqn:Hexec; [| |done..].
    + intros [= <-]. unfold executeWorkflow in Hexec.
      assert (Hsome : is_Some (instances w1 !! instanceID)).
      { destruct (Steps schema); [done|].
        by apply workflowLoop_quiet_returned in Hexec as [? _]. }
      destruct Hsome as [row1 Hrow1].
      rewrite lookup_failInstance, Hrow1. simpl.
      eexists. split; [done|]. split; [by eexists|]. by right.
    + intros [= <-]. unfold executeWorkflow in Hexec.
      destruct (Steps schema).
      * injection Hexec as <-. unfold completeInstance.
        rewrite lookup_update_instance, Hrow. simpl.
        eexists. split; [done|]. split; [by eexists|]. by left.
      * apply workflowLoop_quiet_returned in Hexec as [_ Hnone]; [|done].
        destruct (Hnone eq_refl) as (row' & Hrow' & Hstatus & Hat & Hmsg).
        exists row'. rewrite Hrow in Hmsg. by repeat split; [..|left].
  - intros [= <-]. rewrite lookup_failInstance, Hrow. simpl.
    eexists. split; [done|]. split; [by eexists|]. by right.
Qed.

Lemma worker_leaves_final_status_witness :
  let w := store_of (running_instance 10 "") in
  ∃ row',
    instances (world_of (processInstance (λ _, Val two_steps) quiet 5 w 7))
      !! 7%N = Some row' ∧
    is_Some (inst_CompletedAt row').
Proof.
  intros w.
  destruct (processInstance (λ _, Val two_steps) quiet 5 w 7)
    as [w' []|w'|w'] eqn:Hp; [|vm_compute in Hp; discriminate..].
  destruct (worker_leaves_final_status (λ _, Val two_steps) 5 w 7
              (running_instance 10 "") w')
    as (row' & Hrow' & Hat & _); [reflexivity|reflexivity|exact Hp|].
  exists row'. by split.
Defined.

(** ** The sweeps *)

Lemma foldl_QueueInstance capacity (rows : list (uuid * WorkflowInstance))
    (s : Scheduler.state) :
  let s' := foldl (λ s '(instanceID, _),
                     (Scheduler.QueueInstance capacity s instanceID).1) s rows in
  Scheduler.workers s' = Scheduler.workers s ∧
  Scheduler.instances s' = Scheduler.instances s ∧
  Scheduler.queue s'
    = (Scheduler.queue s
       ++ take (capacity - length (Scheduler.queue s)) rows.*1)%list.
Proof.
  revert s. induction rows as [|[instanceID row] rows IH]; intros s; simpl.
  - by rewrite take_nil, app_nil_r.
  - destruct (IH (Scheduler.QueueInstance capacity s instanceID).1)
      as (Hw & Hi & Hq).
    rewrite Hw, Hi, Hq. unfold Scheduler.QueueInstance.
    destruct (Nat.ltb_spec (length (Scheduler.queue s)) capacity) as [Hlt|Hge];
      simpl.
    + repeat split. rewrite length_app. simpl.
      replace (capacity - length (Scheduler.queue s))%nat
        with (S (capacity - (length (Scheduler.queue s) + 1)))%nat by lia.
      simpl. by rewrite <- app_assoc.
    + repeat split.
      replace (capacity - length (Scheduler.queue s))%nat with 0%nat by lia.
      done.
Qed.

Lemma elem_of_pending_instances w instanceID row :
  (instanceID, row) ∈ pending_instances w ↔
  instances w !! instanceID = Some row ∧
  inst_Status row = WorkflowStatusPending.
Proof.
  unfold pending_instances.
  rewrite list_elem_of_In, filter_In, <- list_elem_of_In.
  rewrite elem_of_map_to_list, WorkflowStatus_eqb_eq. done.
Qed.

Lemma checkPendingWorkflows_queue capacity w s :
  Scheduler.queue (checkPendingWorkflows capacity w s)
  = (Scheduler.queue s
     ++ take (capacity - length (Scheduler.queue s))
          (take 10 (pending_instances w)).*1)%list.
Proof. unfold checkPendingWorkflows. apply foldl_QueueInstance. Qed.

Lemma swept_ids_pending n w instanceID :
  instanceID ∈ take n (take 10 (pending_instances w)).*1 →
  ∃ row, instances w !! instanceID = Some row ∧
         inst_Status row = WorkflowStatusPending.
Proof.
  intros Hin. apply (subseteq_take _ _ _) in Hin.
  apply list_elem_of_fmap in Hin as ([id row] & -> & Hin).
  apply (subseteq_take _ _ _), elem_of_pending_instances in Hin. eauto.
Qed.

(** X10. The sweep for pending workflows appends to the queue the ids of at
    most ten instances, each of them [pending] and none twice, as far as the
    queue has room (the others are dropped); it starts no worker.  And a
    worker started on such an id changes nothing, since the instance is not
    [running]: the sweep wakes a pending instance up but does not advance
    it. *)
Theorem checkPendingWorkflows_queues_pending capacity w s :
  let s' := checkPendingWorkflows capacity w s in
  Scheduler.workers s' = Scheduler.workers s ∧
  Scheduler.instances s' = Scheduler.instances s ∧
  ∃ ids,
    Scheduler.queue s' = (Scheduler.queue s ++ ids)%list ∧
    (length ids ≤ 10)%nat ∧
    (length ids ≤ capacity - length (Scheduler.queue s))%nat ∧
    NoDup ids ∧
    ∀ instanceID, instanceID ∈ ids →
      (∃ row, instances w !! instanceID = Some row ∧
              inst_Status row = WorkflowStatusPending) ∧
      ∀ parseSchema env turns,
        processInstance parseSchema env turns w instanceID = Returned w tt.
Proof.
  intros s'. subst s'. unfold checkPendingWorkflows.
  destruct (foldl_QueueInstance capacity (take 10 (pending_instances w)) s)
    as (Hw & Hi & Hq).
  split; [done|]. split; [done|].
  eexists. split; [exact Hq|].
  assert (Hnd : NoDup (pending_instances w).*1).
  { unfold pending_instances.
    pose proof (NoDup_fst_map_to_list (instances w)) as Hall.
    induction (map_to_list (instances w)) as [|x l IH]; simpl; [constructor|].
    apply NoDup_cons in Hall as [Hx Hl].
    destruct (WorkflowStatus_eqb _ _); simpl; [|by apply IH].
    apply NoDup_cons. split; [|by apply IH].
    intros Hin. apply Hx.
    apply list_elem_of_fmap in Hin as (y & -> & Hy).
    apply list_elem_of_fmap. exists y. split; [done|].
    apply list_elem_of_In, filter_In in Hy as [Hy _]. by apply list_elem_of_In. }
  split; [rewrite length_take, length_fmap, length_take; lia|].
  split; [rewrite length_take; lia|].
  split.
  { eapply sublist_NoDup; [exact Hnd|].
    etrans; [apply sublist_take|]. apply fmap_sublist, sublist_take. }
  intros instanceID Hin.
  apply (subseteq_take _ _ _) in Hin.
  apply list_elem_of_fmap in Hin as ([id row] & -> & Hin).
  apply (subseteq_take _ _ _), elem_of_pending_instances in Hin
    as [Hrow Hpending].
  split; [eauto|]. intros parseSchema env turns.
  unfold processInstance. simpl. by rewrite Hrow, Hpending.
Qed.

Lemma find_steps_nil (P : WorkflowStep → bool) (w : World) :
  (∀ k row, steps w !! k = Some row → P row = false) → find_steps P w = [].
Proof.
  intros Hall. destruct (find_steps P w) as [|[k row] rows] eqn:Heq; [done|].
  assert (Hin : (k, row) ∈ find_steps P w) by (rewrite Heq; left).
  apply elem_of_find_steps in Hin as [Hk HP].
  rewrite (Hall _ _ Hk) in HP. done.
Qed.

(** X11. The sweep for timeouts rewrites the timed-out rows and nothing
    else: a row that is not [running] past the timeout is kept as it is, no
    row appears or disappears, and nothing is published.  Running the sweep
    again at the same time changes nothing. *)
Theorem checkTimeouts_frame config w :
  let timeout := (clock w - StepTimeout config * second)%Z in
  let w' := checkTimeouts config w in
  (∀ k, steps w' !! k
        = (λ row, if timed_out timeout row then timed_out_row (clock w) row
                  else row) <$> steps w !! k) ∧
  bus w' = bus w ∧ clock w' = clock w ∧
  checkTimeouts config w' = w'.
Proof.
  intros timeout w'. subst w'. unfold checkTimeouts. fold timeout.
  destruct (foldl_HandleStepTimeout (find_steps (timed_out timeout) w) w
              (NoDup_find_steps _ _)) as (Hclock & _ & Hbus & Hin & Hout).
  set (w' := foldl _ w _) in *.
  assert (Hlook : ∀ k, steps w' !! k
            = (λ row, if timed_out timeout row then timed_out_row (clock w) row
                      else row) <$> steps w !! k).
  { intros k. destruct (steps w !! k) as [row|] eqn:Hk; simpl.
    - destruct (timed_out timeout row) eqn:HP.
      + apply Hin. by apply elem_of_find_steps.
      + rewrite Hout, Hk; [done|].
        intros ([k' row'] & -> & Hin')%list_elem_of_fmap.
        apply elem_of_find_steps in Hin' as [Hk' HP']. simpl in *. congruence.
    - rewrite Hout, Hk; [done|].
      intros ([k' row'] & -> & Hin')%list_elem_of_fmap.
      apply elem_of_find_steps in Hin' as [Hk' HP']. simpl in *. congruence. }
  split; [done|]. split; [done|]. split; [done|].
  rewrite Hclock. fold timeout. rewrite find_steps_nil; [done|].
  intros k row Hk. rewrite Hlook in Hk.
  destruct (steps w !! k) as [row0|]; [|done]. simpl in Hk.
  destruct (timed_out timeout row0) eqn:HP; injection Hk as <-; done.
Qed.

(** ** The dispatcher *)

Lemma QueueInstance_bounded capacity s instanceID :
  (length (Scheduler.queue s) ≤ capacity)%nat →
  (length (Scheduler.queue (Scheduler.QueueInstance capacity s instanceID).1)
   ≤ capacity)%nat.
Proof.
  intros Hle. unfold Scheduler.QueueInstance.
  destruct (Nat.ltb_spec (length (Scheduler.queue s)) capacity); simpl; [|done].
  rewrite length_app. simpl. lia.
Qed.

Lemma step_bounded capacity s a s' :
  (length (Scheduler.queue s) ≤ capacity)%nat →
  Scheduler.step capacity s a = Some s' →
  (length (Scheduler.queue s') ≤ capacity)%nat.
Proof.
  intros Hle. destruct a as [instanceID|event| |i|i]; simpl.
  - intros [= <-]. by apply QueueInstance_bounded.
  - intros [= <-]. unfold Scheduler.handleEvent.
    destruct (ev_type event =? "step_completed"); [|done].
    by apply QueueInstance_bounded.
  - unfold Scheduler.processQueue.
    destruct (Scheduler.queue s) as [|instanceID rest] eqn:Hq; [done|].
    simpl in Hle. destruct (decide _); intros [= <-]; simpl; lia.
  - unfold Scheduler.processInstance_Store.
    destruct (Scheduler.workers s !! i) as [[instanceID []]|]; try done.
    by intros [= <-].
  - unfold Scheduler.processInstance_Delete.
    destruct (Scheduler.workers s !! i) as [[instanceID []]|]; try done.
    by intros [= <-].
Qed.

(** X12. The queue is bounded: along every schedule of sends, deliveries,
    receives, stores and deletes that starts with at most [capacity] queued
    ids, the queue never holds more than [capacity] ids; a send that finds
    the queue full is answered with "workflow queue is full" and changes
    nothing. *)
Theorem queue_never_exceeds_capacity capacity s l s' :
  (length (Scheduler.queue s) ≤ capacity)%nat →
  Scheduler.schedule capacity s l = Some s' →
  (length (Scheduler.queue s') ≤ capacity)%nat ∧
  ∀ instanceID,
    length (Scheduler.queue s') = capacity →
    Scheduler.QueueInstance capacity s' instanceID
      = (s', Some "workflow queue is full").
Proof.
  intros Hle Hrun.
  assert (Hbound : (length (Scheduler.queue s') ≤ capacity)%nat).
  { revert s Hle Hrun. induction l as [|a l IH]; intros s Hle; simpl.
    - by intros [= <-].
    - destruct (Scheduler.step capacity s a) as [s1|] eqn:Hstep; [|done].
      apply IH. by eapply step_bounded. }
  split; [done|]. intros instanceID Hfull. unfold Scheduler.QueueInstance.
  rewrite Hfull, Nat.ltb_irrefl. done.
Qed.

Lemma queue_never_exceeds_capacity_witness :
  ∃ s', Scheduler.schedule 2 Scheduler.init
          [Scheduler.Enqueue 7; Scheduler.Enqueue 8; Scheduler.Enqueue 9]
        = Some s' ∧
        (length (Scheduler.queue s') ≤ 2)%nat ∧
        Scheduler.QueueInstance 2 s' 9 = (s', Some "workflow queue is full").
Proof.
  eexists. split; [reflexivity|].
  destruct (queue_never_exceeds_capacity 2 Scheduler.init
              [Scheduler.Enqueue 7; Scheduler.Enqueue 8; Scheduler.Enqueue 9]
              _ ltac:(simpl; lia) eq_refl) as [Hle Hfull].
  split; [exact Hle|]. apply Hfull. reflexivity.
Defined.

Lemma step_marks_live capacity s a s' :
  marks_live s → Scheduler.step capacity s a = Some s' → marks_live s'.
Proof.
  intros Hlive. destruct a as [instanceID|event| |i|i]; simpl.
  - intros [= <-]. unfold Scheduler.QueueInstance. by case_match.
  - intros [= <-]. unfold Scheduler.handleEvent, Scheduler.QueueInstance.
    by repeat case_match.
  - unfold Scheduler.processQueue.
    destruct (Scheduler.queue s) as [|instanceID rest]; [done|].
    destruct (decide _); intros [= <-]; [done|].
    intros id Hid. destruct (Hlive id Hid) as [i Hi]. exists i. simpl.
    by apply lookup_app_l_Some.
  - unfold Scheduler.processInstance_Store.
    destruct (Scheduler.workers s !! i) as [[instanceID []]|] eqn:Hi; try done.
    intros [= <-] id. simpl. intros [->%elem_of_singleton|Hid]%elem_of_union.
    + exists i. apply list_lookup_insert_eq. by eapply lookup_lt_Some.
    + destruct (Hlive id Hid) as [j Hj]. exists j.
      rewrite list_lookup_insert_ne; [done|]. intros ->. congruence.
  - unfold Scheduler.processInstance_Delete.
    destruct (Scheduler.workers s !! i) as [[instanceID []]|] eqn:Hi; try done.
    intros [= <-] id. simpl.
    intros [Hid Hne%not_elem_of_singleton]%elem_of_difference.
    destruct (Hlive id Hid) as [j Hj]. exists j.
    rewrite list_lookup_insert_ne; [done|]. intros ->. congruence.
Qed.

(** X13. No mark outlives its worker: along every schedule from the initial
    state, each id in the [instances] map is the id of a goroutine that has
    made its [Store] and has not returned; so an id is never refused by
    [processQueue] on account of a worker that is gone. *)
Theorem marks_have_live_workers capacity l s :
  Scheduler.schedule capacity Scheduler.init l = Some s →
  ∀ instanceID, instanceID ∈ Scheduler.instances s →
    ∃ i, Scheduler.workers s !! i = Some (instanceID, Scheduler.Marked).
Proof.
  assert (Hgen : ∀ s0, marks_live s0 →
            Scheduler.schedule capacity s0 l = Some s → marks_live s).
  { induction l as [|a l IH]; intros s0 Hlive; simpl.
    - by intros [= <-].
    - destruct (Scheduler.step capacity s0 a) as [s1|] eqn:Hstep; [|done].
      apply IH. by eapply step_marks_live. }
  apply Hgen. intros id Hid. by apply not_elem_of_empty in Hid.
Qed.

Lemma marks_have_live_workers_witness :
  let s := default Scheduler.init
             (Scheduler.schedule 100 Scheduler.init
                [Scheduler.Enqueue 7; Scheduler.Receive; Scheduler.Store 0]) in
  ∃ i, Scheduler.workers s !! i = Some (7%N, Scheduler.Marked).
Proof.
  apply (marks_have_live_workers 100
           [Scheduler.Enqueue 7; Scheduler.Receive; Scheduler.Store 0]).
  - reflexivity.
  - simpl. apply elem_of_union_l, elem_of_singleton. reflexivity.
Defined.

Lemma settled_spec s :
  settled s = true ↔
  ∀ i instanceID, Scheduler.workers s !! i ≠ Some (instanceID, Scheduler.Spawned).
Proof.
  unfold settled. rewrite forallb_forall. split.
  - intros Hall i instanceID Hi.
    apply list_elem_of_lookup_2, list_elem_of_In, Hall in Hi. done.
  - intros Hnone [instanceID p] Hin.
    apply list_elem_of_In, list_elem_of_lookup_1 in Hin as [i Hi].
    destruct p; [|done..]. by apply Hnone in Hi.
Qed.

Lemma prompt_step_single capacity s a s' :
  single_workers s → workers_marked s →
  match a with Scheduler.Receive => settled s | _ => true end = true →
  Scheduler.step capacity s a = Some s' →
  single_workers s' ∧ workers_marked s'.
Proof.
  intros Hsingle Hmarked Hprompt.
  destruct a as [instanceID|event| |i|i]; simpl.
  - intros [= <-]. unfold Scheduler.QueueInstance. by case_match.
  - intros [= <-]. unfold Scheduler.handleEvent, Scheduler.QueueInstance.
    by repeat case_match.
  - unfold Scheduler.processQueue.
    destruct (Scheduler.queue s) as [|instanceID rest]; [done|].
    destruct (decide _) as [Hin|Hnotin]; intros [= <-]; [done|].
    pose proof (proj1 (settled_spec s) Hprompt) as Hsettled.
    assert (Hfresh : ∀ j q, Scheduler.workers s !! j = Some (instanceID, q) →
                            live q = false).
    { intros j [] Hj; [by apply Hsettled in Hj| |done].
      by apply Hmarked in Hj. }
    split.
    + intros i j id p q. simpl. intros Hi Hj Hp Hq.
      apply lookup_app_Some in Hi as [Hi|[Hi1 Hi2]];
        apply lookup_app_Some in Hj as [Hj|[Hj1 Hj2]].
      * by eapply Hsingle.
      * apply list_lookup_singleton_Some in Hj2 as [_ [= <- <-]].
        apply Hfresh in Hi. congruence.
      * apply list_lookup_singleton_Some in Hi2 as [_ [= <- <-]].
        apply Hfresh in Hj. congruence.
      * apply list_lookup_singleton_Some in Hi2 as [Hi2 _].
        apply list_lookup_singleton_Some in Hj2 as [Hj2 _]. lia.
    + intros i id. simpl. intros Hi.
      apply lookup_app_Some in Hi as [Hi|[_ Hi]]; [by eapply Hmarked|].
      by apply list_lookup_singleton_Some in Hi as [_ [=]].
  - unfold Scheduler.processInstance_Store.
    destruct (Scheduler.workers s !! i) as [[instanceID []]|] eqn:Hi; try done.
    intros [= <-]. split.
    + intros j1 j2 id p q. simpl. intros H1 H2 Hp Hq.
      apply list_lookup_insert_Some in H1 as [(-> & Heq1 & _)|[Hn1 H1]];
        apply list_lookup_insert_Some in H2 as [(-> & Heq2 & _)|[Hn2 H2]];
        simplify_eq; [done|by eapply Hsingle..].
    + intros j id. simpl. intros Hj.
      apply list_lookup_insert_Some in Hj as [(-> & Heq & _)|[Hn Hj]].
      * simplify_eq. apply elem_of_union_l, elem_of_singleton. done.
      * apply elem_of_union_r. by eapply Hmarked.
  - unfold Scheduler.processInstance_Delete.
    destruct (Scheduler.workers s !! i) as [[instanceID []]|] eqn:Hi; try done.
    intros [= <-]. split.
    + intros j1 j2 id p q. simpl. intros H1 H2 Hp Hq.
      apply list_lookup_insert_Some in H1 as [(-> & Heq1 & _)|[Hn1 H1]];
        [by simplify_eq|].
      apply list_lookup_insert_Some in H2 as [(-> & Heq2 & _)|[Hn2 H2]];
        [by simplify_eq|].
      by eapply Hsingle.
    + intros j id. simpl. intros Hj.
      apply list_lookup_insert_Some in Hj as [(-> & Heq & _)|[Hn Hj]];
        [by simplify_eq|].
      apply elem_of_difference. split; [by eapply Hmarked|].
      intros ->%elem_of_singleton. apply Hn.
      by apply (Hsingle i j instanceID Scheduler.Marked Scheduler.Marked).
Qed.

Lemma filter_at_most_one {A} (f : A → bool) (l : list A) :
  (∀ i j x y, l !! i = Some x → l !! j = Some y →
              f x = true → f y = true → i = j) →
  (length (List.filter f l) ≤ 1)%nat.
Proof.
  induction l as [|x l IH]; intros Huniq; simpl; [lia|].
  destruct (f x) eqn:Hx.
  - destruct (List.filter f l) as [|y rest] eqn:Hfilter; simpl; [lia|].
    assert (Hy : In y (List.filter f l)) by (rewrite Hfilter; by left).
    apply filter_In in Hy as [Hin Hfy].
    apply list_elem_of_In, list_elem_of_lookup_1 in Hin as [j Hj].
    specialize (Huniq 0%nat (S j) x y eq_refl Hj Hx Hfy). lia.
  - apply IH. intros i j a b Hi Hj Ha Hb.
    specialize (Huniq (S i) (S j) a b Hi Hj Ha Hb). lia.
Qed.

(** X14. Without the window between the [go] statement and the [Store], the
    test of [processQueue] does keep one worker per instance: along every
    schedule from the initial state in which [processQueue] receives only
    when each goroutine it started has made its [Store], no instance has two
    goroutines that have not returned. *)
Theorem prompt_stores_one_worker capacity l s :
  prompt_schedule capacity Scheduler.init l = Some s →
  ∀ instanceID, (Scheduler.executing instanceID s ≤ 1)%nat.
Proof.
  assert (Hgen : ∀ s0, single_workers s0 → workers_marked s0 →
            prompt_schedule capacity s0 l = Some s → single_workers s).
  { induction l as [|a l IH]; intros s0 Hsingle Hmarked; simpl.
    - by intros [= <-].
    - destruct (match a with Scheduler.Receive => settled s0 | _ => true end)
        eqn:Hprompt; [|done].
      destruct (Scheduler.step capacity s0 a) as [s1|] eqn:Hstep; [|done].
      destruct (prompt_step_single _ _ _ _ Hsingle Hmarked Hprompt Hstep).
      by apply IH. }
  intros Hrun instanceID.
  assert (Hsingle : single_workers s).
  { apply (Hgen Scheduler.init); [| |done].
    - intros i j id p q Hi. by destruct i.
    - intros i id Hi. by destruct i. }
  unfold Scheduler.executing. apply filter_at_most_one.
  intros i j [id1 p] [id2 q] Hi Hj.
  intros [->%N.eqb_eq Hp]%andb_true_iff [->%N.eqb_eq Hq]%andb_true_iff.
  by apply (Hsingle i j instanceID p q).
Qed.

Lemma prompt_stores_one_worker_witness :
  let s := default Scheduler.init
             (prompt_schedule 100 Scheduler.init
                [Scheduler.Enqueue 7; Scheduler.Enqueue 7; Scheduler.Receive;
                 Scheduler.Store 0; Scheduler.Receive]) in
  (Scheduler.executing 7 s ≤ 1)%nat.
Proof.
  apply (prompt_stores_one_worker 100
           [Scheduler.Enqueue 7; Scheduler.Enqueue 7; Scheduler.Receive;
            Scheduler.Store 0; Scheduler.Receive]).
  reflexivity.
Defined.

Lemma processQueue_marked_witness :
  let s := default Scheduler.init
             (Scheduler.schedule 100 Scheduler.init
                [Scheduler.Enqueue 7; Scheduler.Receive; Scheduler.Store 0;
                 Scheduler.Enqueue 7]) in
  ∃ s', Scheduler.processQueue s = Some s' ∧
        Scheduler.queue s' = [] ∧
        Scheduler.workers s' = Scheduler.workers s ∧
        Scheduler.instances s' = Scheduler.instances s.
Proof.
  apply (processQueue_marked _ 7%N []).
  - reflexivity.
  - simpl. apply elem_of_union_l, elem_of_singleton. reflexivity.
Defined.

(** X15. Every step wakes its own instance up: the last message on the bus
    after a call of [ExecuteStep] that returns is the [step_completed]
    message of that step, and its delivery to the engine's listener queues
    the id of the instance that has just executed it. *)
Theorem step_event_requeues_instance w instanceID instance stepDef w' out :
  ExecuteStep w instanceID instance stepDef = Ok w' out →
  ∃ event,
    last (bus w') = Some event ∧
    ev_instance_id event = instanceID ∧
    ev_step_id event = def_ID stepDef ∧
    ev_success event = Some (Success out.1.2) ∧
    ∀ capacity s,
      Scheduler.handleEvent capacity s event
      = (Scheduler.QueueInstance capacity s instanceID).1.
Proof.
  destruct out as [[instance' result] err]. intros Hexec.
  destruct (ExecuteStep_Ok _ _ _ _ _ _ _ _ Hexec) as (_ & Hbus & _).
  exists (step_event w instanceID (def_ID stepDef) result).
  rewrite Hbus, last_snoc. by repeat split.
Qed.

Lemma step_event_requeues_instance_witness :
  let w := store_of (running_instance 10 "") in
  let w' := exec_world (ExecuteStep w 7 (running_instance 10 "")
                          (log_step "A" ["B"])) in
  ∃ event, last (bus w') = Some event ∧
           Scheduler.queue (Scheduler.handleEvent 100 Scheduler.init event)
           = [7%N].
Proof.
  intros w w'. subst w'.
  destruct (ExecuteStep w 7 (running_instance 10 "") (log_step "A" ["B"]))
    as [w' out|w'] eqn:Hexec; [|vm_compute in Hexec; discriminate].
  destruct (step_event_requeues_instance _ _ _ _ _ _ Hexec)
    as (event & Hlast & _ & _ & _ & Hqueue).
  exists event. split; [exact Hlast|]. by rewrite Hqueue.
Defined.

(** ** More on conditions and on parallel steps *)

(** X16. An operator name that [evaluateCondition] has no case for (a
    misspelt or differently cased name, say) makes the predicate false for
    every value of its field, without error or panic. *)
Theorem unknown_operator_is_false condition variables :
  Operator condition ∉ known_operators →
  evaluateCondition condition variables = Some false.
Proof.
  unfold known_operators. intros Hop.
  repeat (apply not_elem_of_cons in Hop as [?%String.eqb_neq Hop]).
  unfold evaluateCondition.
  destruct (variables !! Field condition); [|done].
  simpl. by repeat match goal with H : (_ =? _) = false |- _ => rewrite H; clear H end.
Qed.

Lemma unknown_operator_is_false_witness :
  evaluateCondition {| Field := "x"; Operator := "gte"; Value := JNum 5 |}
    {[ "x" := JNum 10 ]} = Some false.
Proof.
  apply unknown_operator_is_false. simpl. unfold known_operators.
  repeat (apply not_elem_of_cons; split; [discriminate|]).
  apply not_elem_of_nil.
Defined.

(** X17. The predicates are evaluated in order and the step stops at the
    first one that is false: when the predicates before it are true, the
    step reports "condition not met" whatever follows, even a predicate
    whose evaluation would panic. *)
Theorem first_false_condition_decides instance stepDef before c after :
  def_Conditions stepDef = (before ++ c :: after)%list →
  (∀ p, p ∈ before →
        evaluateCondition p (inst_Variables instance) = Some true) →
  evaluateCondition c (inst_Variables instance) = Some false →
  executeConditionStep instance stepDef
  = Some (Val {| Success := false;
                 Data := {[ "reason" := JStr "condition not met" ]};
                 Error := "" |}).
Proof.
  intros Hconds Hbefore Hc. unfold executeConditionStep. rewrite Hconds.
  replace (length (before ++ c :: after) =? 0)%nat with false
    by (by destruct before).
  assert (Hall : evaluateAll (before ++ c :: after) (inst_Variables instance)
                 = Some {| Success := false;
                           Data := {[ "reason" := JStr "condition not met" ]};
                           Error := "" |}).
  { clear Hconds. induction before as [|p before IH]; simpl.
    - by rewrite Hc.
    - rewrite (Hbefore p) by left. apply IH.
      intros q Hq. apply Hbefore. by right. }
  by rewrite Hall.
Qed.

Lemma first_false_condition_decides_witness :
  executeConditionStep (running_instance 1 "")
    (condition_step "B" [x_gt_5; tags_eq_vip] ["C"; "D"])
  = Some (Val {| Success := false;
                 Data := {[ "reason" := JStr "condition not met" ]};
                 Error := "" |}).
Proof.
  apply (first_false_condition_decides (running_instance 1 "")
           (condition_step "B" [x_gt_5; tags_eq_vip] ["C"; "D"])
           [] x_gt_5 [tags_eq_vip]).
  - reflexivity.
  - intros p Hp. by apply elem_of_nil in Hp.
  - reflexivity.
Defined.

Lemma append_inj_r (s a b : string) : s +:+ a = s +:+ b → a = b.
Proof. induction s as [|ch s IH]; simpl; [done|]. intros [= H]. by apply IH. Qed.

Lemma imap_keys {A B} (g : nat → B) (l : list A) :
  (imap (λ i d, (g i, d)) l).*1 = g <$> seq 0 (length l).
Proof.
  revert g. induction l as [|x l IH]; intros g; simpl; [done|].
  f_equal. rewrite <- fmap_S_seq, <- list_fmap_compose. apply (IH (g ∘ S)).
Qed.

Lemma foldl_insert_lookup {A} (key : nat → string) (val : A → jvalue)
    (rows : list (nat * A)) (m : JSONB) :
  Inj (=) (=) key → NoDup rows.*1 →
  let m' := foldl (λ (m : JSONB) '(i, d), <[key i := val d]> m) m rows in
  (∀ i d, (i, d) ∈ rows → m' !! key i = Some (val d)) ∧
  (∀ k, (∀ i, i ∈ rows.*1 → key i ≠ k) → m' !! k = m !! k).
Proof.
  intros Hinj. revert m. induction rows as [|[i0 d0] rows IH]; intros m Hnd;
    simpl.
  - split; [|done]. intros i d H. by apply elem_of_nil in H.
  - apply NoDup_cons in Hnd as [Hi0 Hnd]. simpl in Hi0.
    destruct (IH (<[key i0 := val d0]> m) Hnd) as [Hin Hout].
    split.
    + intros i d [[= -> ->]|H]%elem_of_cons; [|by apply Hin].
      rewrite Hout; [apply lookup_insert_eq|].
      intros j Hj Heq. apply Hinj in Heq. by subst.
    + intros k Hk. rewrite Hout.
      * apply lookup_insert_ne. apply Hk. left.
      * intros i Hi. apply Hk. by right.
Qed.

(** X18. A parallel step whose [parallel_steps] is an array always succeeds,
    and its output has one entry per sub-task and no other: the sub-task at
    index [i] is reported under the key "parallel_<i>" as [completed],
    together with its own definition. *)
Theorem parallel_step_reports_each_task stepDef parallelSteps :
  def_Config stepDef !! "parallel_steps" = Some (JArr parallelSteps) →
  ∃ results,
    executeParallelStep stepDef
      = Val {| Success := true; Data := results; Error := "" |} ∧
    (∀ i parallelStepData,
       parallelSteps !! i = Some parallelStepData →
       results !! ("parallel_" +:+ pretty i)
         = Some (parallel_report parallelStepData)) ∧
    ∀ key, (∀ i, (i < length parallelSteps)%nat → key ≠ "parallel_" +:+ pretty i) →
           results !! key = None.
Proof.
  intros Hcfg. unfold executeParallelStep. rewrite Hcfg. cbv zeta.
  eexists. split; [reflexivity|].
  assert (Hinj : Inj (=) (=) (λ i : nat, "parallel_" +:+ pretty i)).
  { intros i j Heq. apply append_inj_r in Heq. by apply (inj pretty). }
  assert (Hnd : NoDup (imap (λ (i : nat) (d : jvalue), (i, d)) parallelSteps).*1).
  { rewrite (imap_keys (λ i, i)), list_fmap_id. apply NoDup_seq. }
  destruct (foldl_insert_lookup (λ i : nat, "parallel_" +:+ pretty i)
              parallel_report
              (imap (λ (i : nat) (d : jvalue), (i, d)) parallelSteps) ∅
              Hinj Hnd) as [Hin Hout].
  split.
  - intros i d Hi. apply Hin.
    apply list_elem_of_lookup. exists i. rewrite list_lookup_imap, Hi. done.
  - intros key Hkey. rewrite Hout; [done|].
    intros i Hi Heq. apply (Hkey i); [|done].
    rewrite (imap_keys (λ i, i)), list_fmap_id in Hi.
    apply elem_of_seq in Hi. lia.
Qed.

Lemma parallel_step_reports_each_task_witness :
  ∃ results,
    executeParallelStep
      {| def_ID := "P"; def_Name := "P"; def_Type := StepTypeParallel;
         def_Config := {[ "parallel_steps" := JArr [JStr "a"; JStr "b"] ]};
         def_NextSteps := []; def_Conditions := []; def_RetryPolicy := None |}
      = Val {| Success := true; Data := results; Error := "" |} ∧
    results !! "parallel_1" = Some (parallel_report (JStr "b")).
Proof.
  destruct (parallel_step_reports_each_task
              {| def_ID := "P"; def_Name := "P"; def_Type := StepTypeParallel;
                 def_Config := {[ "parallel_steps" := JArr [JStr "a"; JStr "b"] ]};
                 def_NextSteps := []; def_Conditions := [];
                 def_RetryPolicy := None |}
              [JStr "a"; JStr "b"]) as (results & Hexec & Hin & _);
    [reflexivity|].
  exists results. split; [exact Hexec|]. apply (Hin 1%nat). reflexivity.
Defined.

(** ** The handlers *)

(** X19. Pausing and resuming is a round trip on the store: for a running
    instance, [ResumeInstance] after [PauseInstance] answers 200 when the
    queue has room, restores the instances table exactly as it was before
    the pause, and queues the id of the instance once. *)
Theorem pause_resume_round_trip capacity w s instanceID row :
  instances w !! instanceID = Some row →
  inst_Status row = WorkflowStatusRunning →
  (length (Scheduler.queue s) < capacity)%nat →
  ∃ w' s',
    ResumeInstance capacity (PauseInstance w instanceID) s instanceID
      = (StatusOK, w', s') ∧
    instances w' = instances w ∧ steps w' = steps w ∧
    Scheduler.queue s' = (Scheduler.queue s ++ [instanceID])%list ∧
    Scheduler.workers s' = Scheduler.workers s.
Proof.
  intros Hrow Hrunning Hroom.
  unfold PauseInstance. rewrite Hrow, Hrunning. simpl.
  unfold ResumeInstance. rewrite lookup_update_instance, Hrow. simpl.
  unfold Scheduler.QueueInstance.
  apply Nat.ltb_lt in Hroom. rewrite Hroom.
  eexists _, _. split; [reflexivity|]. simpl. split; [|done].
  apply map_eq. intros i.
  destruct (decide (instanceID = i)) as [<-|Hne];
    [|by rewrite !lookup_alter_ne].
  rewrite !lookup_alter_eq, Hrow. simpl. f_equal.
  destruct row. simpl in *. by subst.
Qed.

Lemma pause_resume_round_trip_witness :
  let w := store_of (running_instance 10 "A") in
  ∃ w' s',
    ResumeInstance 100 (PauseInstance w 7) Scheduler.init 7
      = (StatusOK, w', s') ∧
    instances w' = instances w.
Proof.
  intros w.
  destruct (pause_resume_round_trip 100 w Scheduler.init 7
              (running_instance 10 "A"))
    as (w' & s' & Hresume & Hinst & _);
    [reflexivity|reflexivity|simpl; lia|].
  by exists w', s'.
Defined.

(** X20. A start that finds the queue (a buffered channel, of positive
    capacity) full strands the instance: the handler answers 500 after it
    has saved the instance as [running], with [started_at] set, and queues
    nothing.  In the store it leaves, as in every store in which the
    instance is [running], the sweep for pending workflows does not queue
    the id, and a start or a resume is refused with 400 and changes
    nothing, whatever the queue holds. *)
Theorem start_on_full_queue_strands capacity w s instanceID row :
  (0 < capacity)%nat →
  instances w !! instanceID = Some row →
  inst_Status row = WorkflowStatusPending ∨
  inst_Status row = WorkflowStatusPaused →
  (capacity ≤ length (Scheduler.queue s))%nat →
  ∃ w',
    StartInstance capacity w s instanceID = (StatusInternalServerError, w', s) ∧
    (∃ row', instances w' !! instanceID = Some row' ∧
             inst_Status row' = WorkflowStatusRunning ∧
             inst_StartedAt row' = Some (clock w) ∧
             inst_CurrentStep row' = inst_CurrentStep row) ∧
    ∀ w'' row'',
      instances w'' !! instanceID = Some row'' →
      inst_Status row'' = WorkflowStatusRunning →
      ∀ capacity0 s0,
        (instanceID ∉
           drop (length (Scheduler.queue s0))
             (Scheduler.queue (checkPendingWorkflows capacity0 w'' s0))) ∧
        StartInstance capacity0 w'' s0 instanceID = (StatusBadRequest, w'', s0) ∧
        ResumeInstance capacity0 w'' s0 instanceID
          = (StatusBadRequest, w'', s0).
Proof.
  intros _ Hrow Hstatus Hfull.
  assert (Hfull' : (length (Scheduler.queue s) <? capacity)%nat = false)
    by by apply Nat.ltb_ge.
  set (w' := update_instance w instanceID
               (λ _, set_started row WorkflowStatusRunning (Some (clock w)))).
  assert (Hrow' : instances w' !! instanceID
                  = Some (set_started row WorkflowStatusRunning
                            (Some (clock w))))
    by (subst w'; by rewrite lookup_update_instance, Hrow).
  exists w'. split; [|split].
  - unfold StartInstance. rewrite Hrow.
    destruct Hstatus as [-> | ->]; simpl;
      unfold Scheduler.QueueInstance; by rewrite Hfull'.
  - eexists. split; [exact Hrow'|]. by repeat split.
  - intros w'' row'' Hrow'' Hrun capacity0 s0. split; [|split].
    + intros Hin.
      rewrite checkPendingWorkflows_queue, drop_app_length in Hin.
      apply swept_ids_pending in Hin as (r & Hr & Hpending).
      rewrite Hrow'' in Hr. injection Hr as <-. by rewrite Hrun in Hpending.
    + unfold StartInstance. by rewrite Hrow'', Hrun.
    + unfold ResumeInstance. by rewrite Hrow'', Hrun.
Qed.

(** The queue of capacity 2 holds two ids when instance 7 is started: the
    start answers 500 with the row saved as [running]; a sweep by an engine
    whose queue is empty does not pick the instance up, and a resume is
    refused. *)
Lemma start_on_full_queue_strands_witness :
  ∃ w' row',
    StartInstance 2 (store_of pending_instance) full_queue 7
      = (StatusInternalServerError, w', full_queue) ∧
    instances w' !! 7%N = Some row' ∧
    inst_Status row' = WorkflowStatusRunning ∧
    inst_StartedAt row' = Some 5000000000%Z ∧
    (7%N ∉ Scheduler.queue (checkPendingWorkflows 2 w' Scheduler.init)) ∧
    ResumeInstance 2 w' Scheduler.init 7 = (StatusBadRequest, w', Scheduler.init).
Proof.
  destruct (start_on_full_queue_strands 2 (store_of pending_instance)
              full_queue 7 pending_instance)
    as (w' & Hstart & (row' & Hrow' & Hstatus & Hstarted & _) & Hlater);
    [lia|reflexivity|by left|simpl; lia|].
  destruct (Hlater w' row' Hrow' Hstatus 2%nat Scheduler.init)
    as (Hsweep & _ & Hresume).
  exists w', row'. split; [exact Hstart|]. split; [exact Hrow'|].
  split; [exact Hstatus|]. split; [exact Hstarted|].
  split; [exact Hsweep|exact Hresume].
Defined.

(** X21. The final statuses are final for the handlers and for a worker:
    on an instance that is [completed], [failed] or [cancelled], a start and
    a resume are refused with 400, a pause and a cancel change nothing, and
    a worker started on it returns at once; the store is left as it is. *)
Theorem final_status_is_absorbing capacity w s instanceID row :
  instances w !! instanceID = Some row →
  inst_Status row = WorkflowStatusCompleted ∨
  inst_Status row = WorkflowStatusFailed ∨
  inst_Status row = WorkflowStatusCancelled →
  StartInstance capacity w s instanceID = (StatusBadRequest, w, s) ∧
  ResumeInstance capacity w s instanceID = (StatusBadRequest, w, s) ∧
  PauseInstance w instanceID = w ∧
  CancelInstance w instanceID = w ∧
  ∀ parseSchema env turns,
    processInstance parseSchema env turns w instanceID = Returned w tt.
Proof.
  intros Hrow Hstatus.
  unfold StartInstance, ResumeInstance, PauseInstance, CancelInstance,
    processInstance.
  rewrite Hrow. by destruct Hstatus as [-> | [-> | ->]].
Qed.

Lemma final_status_is_absorbing_witness :
  let w := store_of (set_instance (running_instance 10 "A")
                       WorkflowStatusCancelled "A" (Some 1%Z) "") in
  CancelInstance w 7 = w ∧
  StartInstance 100 w Scheduler.init 7 = (StatusBadRequest, w, Scheduler.init).
Proof.
  intros w.
  destruct (final_status_is_absorbing 100 w Scheduler.init 7
              (set_instance (running_instance 10 "A")
                 WorkflowStatusCancelled "A" (Some 1%Z) ""))
    as (Hstart & _ & _ & Hcancel & _); [reflexivity|by right; right|].
  by split.
Defined.

(** ** Templates *)

Lemma elem_of_active_instances w templateID instanceID row :
  (instanceID, row) ∈ active_instances w templateID ↔
  instances w !! instanceID = Some row ∧
  inst_TemplateID row = templateID ∧
  (inst_Status row = WorkflowStatusPending ∨
   inst_Status row = WorkflowStatusRunning ∨
   inst_Status row = WorkflowStatusPaused).
Proof.
  unfold active_instances.
  rewrite list_elem_of_In, filter_In, <- list_elem_of_In.
  rewrite elem_of_map_to_list, andb_true_iff, !orb_true_iff, N.eqb_eq,
    !WorkflowStatus_eqb_eq.
  simpl. tauto.
Qed.

(** X22. An instance protects its template: [CreateInstance] answers 201
    only for a template that exists and is active, adds one [pending] row
    under a new id and leaves the other rows alone; and as long as that
    instance is pending, [DeleteTemplate] on its template is refused with
    409 and changes nothing. *)
Theorem created_instance_blocks_delete w userID req w' :
  CreateInstance w userID req = (StatusCreated, w') →
  (∃ template, templates w !! req_TemplateID req = Some template ∧
               tmpl_IsActive template = true) ∧
  (∃ instanceID row,
     instances w !! instanceID = None ∧
     instances w' = <[instanceID := row]> (instances w) ∧
     inst_Status row = WorkflowStatusPending ∧
     inst_CurrentStep row = "" ∧
     inst_Variables row = req_Variables req) ∧
  DeleteTemplate w' (req_TemplateID req) = (StatusConflict, w').
Proof.
  unfold CreateInstance.
  destruct (templates w !! req_TemplateID req) as [template|] eqn:Htmpl;
    [|done].
  destruct (tmpl_IsActive template) eqn:Hactive; [|done].
  destruct userID as [user|]; [|done].
  intros [= <-]. split; [eauto|]. split.
  - eexists _, _. split; [|done].
    apply not_elem_of_dom, is_fresh.
  - unfold DeleteTemplate. simpl. rewrite Htmpl.
    set (w' := with_instances w _).
    destruct (active_instances w' (req_TemplateID req)) as [|x l] eqn:Hactives;
      [|done].
    exfalso.
    assert (Hin : (fresh (dom (instances w)),
                   {| inst_TemplateID := req_TemplateID req;
                      inst_Name := req_Name req;
                      inst_Status := WorkflowStatusPending;
                      inst_Context := req_Context req;
                      inst_Variables := req_Variables req;
                      inst_CurrentStep := "";
                      inst_StartedAt := None; inst_CompletedAt := None;
                      inst_ErrorMessage := "" |})
                  ∈ active_instances w' (req_TemplateID req)).
    { apply elem_of_active_instances. subst w'. simpl.
      split; [apply lookup_insert_eq|]. split; [done|]. by left. }
    rewrite Hactives in Hin. by apply elem_of_nil in Hin.
Qed.

(** A store with one active template, with id 1, and no instance. *)
Lemma created_instance_blocks_delete_witness :
  let w := {| templates := {[ 1%N := {| tmpl_Name := "order";
                                        tmpl_Schema := ∅;
                                        tmpl_IsActive := true |} ]};
              instances := ∅; steps := ∅; bus := []; clock := 0 |} in
  let req := {| req_TemplateID := 1; req_Name := "first"; req_Variables := ∅;
                req_Context := ∅ |} in
  let w' := (CreateInstance w (Some "ada") req).2 in
  DeleteTemplate w' 1 = (StatusConflict, w').
Proof.
  intros w req w'.
  destruct (created_instance_blocks_delete w (Some "ada") req w')
    as (_ & _ & Hdelete); [reflexivity|].
  exact Hdelete.
Defined.

(** X23. Deleting a template is a soft delete, and it is final for new
    instances: [DeleteTemplate] answers 200 only when the template has no
    pending, running or paused instance; the row stays in the table with its
    name and schema, inactive; the instances are untouched; and every later
    [CreateInstance] for the template is refused with 404. *)
Theorem deleted_template_refuses_create w templateID w' :
  DeleteTemplate w templateID = (StatusOK, w') →
  active_instances w templateID = [] ∧
  (∃ template,
     templates w !! templateID = Some template ∧
     templates w'
       = <[templateID := {| tmpl_Name := tmpl_Name template;
                            tmpl_Schema := tmpl_Schema template;
                            tmpl_IsActive := false |}]> (templates w)) ∧
  instances w' = instances w ∧ steps w' = steps w ∧
  ∀ userID req, req_TemplateID req = templateID →
                CreateInstance w' userID req = (StatusNotFound, w').
Proof.
  unfold DeleteTemplate.
  destruct (templates w !! templateID) as [template|] eqn:Htmpl; [|done].
  destruct (active_instances w templateID) as [|x l] eqn:Hactives; [|done].
  intros [= <-]. split; [done|]. split; [eauto|]. split; [done|].
  split; [done|]. intros userID req Hreq. unfold CreateInstance. simpl.
  by rewrite Hreq, lookup_insert_eq.
Qed.

Lemma deleted_template_refuses_create_witness :
  let w := {| templates := {[ 1%N := {| tmpl_Name := "order";
                                        tmpl_Schema := ∅;
                                        tmpl_IsActive := true |} ]};
              instances := ∅; steps := ∅; bus := []; clock := 0 |} in
  let w' := (DeleteTemplate w 1).2 in
  CreateInstance w' (Some "ada")
    {| req_TemplateID := 1; req_Name := "late";
       req_Variables := ∅; req_Context := ∅ |}
  = (StatusNotFound, w').
Proof.
  intros w w'.
  destruct (deleted_template_refuses_create w 1 w')
    as (_ & _ & _ & _ & Hcreate); [reflexivity|].
  by apply Hcreate.
Defined.

Lemma validateSteps_nil stepsSlice : validateSteps stepsSlice = None.
Proof.
  induction stepsSlice as [|step rest IH]; simpl; [done|].
  destruct step; try done. by repeat case_match.
Qed.

(** X24. [validateWorkflowSchema] rejects nothing: for every schema, with or
    without steps, whatever the steps are and whether or not they have an id
    and a type, it returns nil; so the template handlers store every schema
    they are given. *)
Theorem validateWorkflowSchema_accepts_all schema :
  validateWorkflowSchema schema = None.
Proof.
  unfold validateWorkflowSchema.
  destruct (schema !! "steps") as [[]|]; try done. apply validateSteps_nil.
Qed.

(** ** The configuration *)

(** X25. [getEnvAsInt] understands the numerals 10, 100, 300 and 3 only:
    a variable that is unset or empty gives the default, and so does every
    other number, which is replaced by the default without notice; hence the
    step timeout of a loaded configuration is one of 300, 10, 100 and 3. *)
Theorem getEnvAsInt_knows_four_numerals env key defaultValue :
  (Getenv env key = "" → getEnvAsInt env key defaultValue = defaultValue) ∧
  (∀ n : Z, n ∈ [10; 100; 300; 3]%Z → env !! key = Some (pretty n) →
            getEnvAsInt env key defaultValue = n) ∧
  (∀ n : Z, n ∉ [10; 100; 300; 3]%Z → env !! key = Some (pretty n) →
            getEnvAsInt env key defaultValue = defaultValue) ∧
  StepTimeout (LoadConfig env) ∈ [300; 10; 100; 3]%Z.
Proof.
  split; [|split; [|split]].
  - unfold getEnvAsInt. by intros ->.
  - intros n Hn Henv. unfold getEnvAsInt, Getenv. rewrite Henv. simpl.
    repeat (apply elem_of_cons in Hn as [->|Hn]); [done..|].
    by apply elem_of_nil in Hn.
  - intros n Hn Henv. unfold getEnvAsInt, Getenv. rewrite Henv. simpl.
    repeat (apply not_elem_of_cons in Hn as [? Hn]).
    destruct (String.eqb_spec (pretty n) "") as [->|]; [done|]. simpl.
    destruct (String.eqb_spec (pretty n) "10") as [Heq|];
      [by pose proof (inj pretty n 10%Z Heq)|].
    destruct (String.eqb_spec (pretty n) "100") as [Heq|];
      [by pose proof (inj pretty n 100%Z Heq)|].
    destruct (String.eqb_spec (pretty n) "300") as [Heq|];
      [by pose proof (inj pretty n 300%Z Heq)|].
    destruct (String.eqb_spec (pretty n) "3") as [Heq|];
      [by pose proof (inj pretty n 3%Z Heq)|].
    done.
  - unfold LoadConfig, getEnvAsInt. simpl.
    repeat case_match; repeat constructor.
Qed.

Lemma getEnvAsInt_knows_four_numerals_witness :
  getEnvAsInt {[ "STEP_TIMEOUT" := "600" ]} "STEP_TIMEOUT" 300 = 300%Z.
Proof.
  destruct (getEnvAsInt_knows_four_numerals {[ "STEP_TIMEOUT" := "600" ]}
              "STEP_TIMEOUT" 300) as (_ & _ & Hother & _).
  apply (Hother 600%Z); [|reflexivity].
  repeat (apply not_elem_of_cons; split; [discriminate|]).
  apply not_elem_of_nil.
Defined.

(** ** Next steps *)

(** X26. Next-step resolution stays inside the step's [next_steps]: it never
    returns an error, it ends the workflow when the list is empty, and
    otherwise it yields an entry of the list, the first one unless the step
    is a condition that failed and has a second entry. *)
Theorem determineNextStep_in_next_steps stepDef result :
  (determineNextStep stepDef result).2 = None ∧
  match def_NextSteps stepDef with
  | [] => (determineNextStep stepDef result).1 = ""
  | first :: _ =>
    (determineNextStep stepDef result).1 ∈ def_NextSteps stepDef ∧
    (def_Type stepDef ≠ StepTypeCondition ∨ Success result = true →
     (determineNextStep stepDef result).1 = first)
  end.
Proof.
  unfold determineNextStep.
  destruct (def_NextSteps stepDef) as [|first [|second rest]]; simpl.
  - done.
  - split; [done|]. split; [left|done].
  - destruct (String.eqb_spec (def_Type stepDef) StepTypeCondition);
      destruct (Success result); simpl; (split; [done|]);
      (split; [repeat constructor|]); try done.
    by intros [?|?].
Qed.

(** ** A loop that does not end *)

Lemma ExecuteStep_log_message w instanceID instance stepDef message :
  def_Type stepDef = StepTypeAction →
  def_Config stepDef !! "action" = Some (JStr "log_message") →
  def_Config stepDef !! "message" = Some (JStr message) →
  ∃ w' result,
    ExecuteStep w instanceID instance stepDef = Ok w' (instance, result, None) ∧
    Success result = true ∧ instances w' = instances w.
Proof.
  intros Htype Haction Hmessage. unfold ExecuteStep.
  pose proof (createOrUpdateStep_world w instanceID stepDef) as Hw.
  destruct (createOrUpdateStep w instanceID stepDef) as [w1 [k step]].
  destruct Hw as (_ & Hinst & _). simpl in Hinst.
  cbv zeta. unfold executeByType, executeActionStep, executeLogMessage.
  rewrite Htype, Haction, Hmessage. simpl.
  eexists _, _. split; [reflexivity|]. split; [reflexivity|]. exact Hinst.
Qed.

(** X27. The loop has no bound of its own: on a log step whose only next
    entry is the step itself, a worker that is left alone never returns and
    never panics, however many turns it is observed for; the instance stays
    [running]. *)
Theorem self_loop_never_returns turns k w instanceID instance schema stepDef
    message row :
  def_Type stepDef = StepTypeAction →
  def_Config stepDef !! "action" = Some (JStr "log_message") →
  def_Config stepDef !! "message" = Some (JStr message) →
  def_NextSteps stepDef = [def_ID stepDef] →
  def_ID stepDef ≠ "" →
  findStepDefinition (Steps schema) (def_ID stepDef) = Some stepDef →
  instances w !! instanceID = Some row →
  inst_Status row = WorkflowStatusRunning →
  ∃ w',
    workflowLoop quiet turns k w instanceID instance schema (def_ID stepDef)
      = Looping w' ∧
    inst_Status <$> instances w' !! instanceID = Some WorkflowStatusRunning ∧
    length (bus w') = (length (bus w) + turns)%nat.
Proof.
  intros Htype Haction Hmessage Hnext Hid Hdef.
  revert k w row. induction turns as [|turns IH]; intros k w row Hrow Hrunning;
    cbn [workflowLoop].
  - exists w. rewrite Hrow. simpl. rewrite Hrunning. split; [done|].
    split; [done|lia].
  - change (act quiet k w) with w. change (done quiet k) with false.
    rewrite (checkInstanceStatus_running _ _ _ Hrow Hrunning), Hdef.
    destruct (ExecuteStep_log_message w instanceID instance stepDef message
                Htype Haction Hmessage) as (w1 & result & Hexec & _ & Hinst).
    rewrite Hexec.
    destruct (ExecuteStep_Ok _ _ _ _ _ _ _ _ Hexec) as (_ & Hbus & _).
    assert (Hd : determineNextStep stepDef result = (def_ID stepDef, None))
      by (unfold determineNextStep; by rewrite Hnext).
    rewrite Hd. apply String.eqb_neq in Hid. rewrite Hid.
    destruct (IH (S k) (updateInstanceCurrentStep w1 instanceID (def_ID stepDef))
                (set_instance row (inst_Status row) (def_ID stepDef)
                   (inst_CompletedAt row) (inst_ErrorMessage row)))
      as (w' & Hloop & Hstatus & Hlen).
    + unfold updateInstanceCurrentStep.
      by rewrite lookup_update_instance, Hinst, Hrow.
    + done.
    + exists w'. split; [done|]. split; [done|].
      rewrite Hlen. simpl. rewrite Hbus, length_app. simpl. lia.
Qed.

Lemma self_loop_never_returns_witness :
  let w := store_of (running_instance 10 "") in
  ∃ w', workflowLoop quiet 3 0 w 7 (running_instance 10 "")
          {| Steps := [log_step "A" ["A"]] |} "A" = Looping w' ∧
        length (bus w') = 3%nat.
Proof.
  intros w.
  destruct (self_loop_never_returns 3 0 w 7 (running_instance 10 "")
              {| Steps := [log_step "A" ["A"]] |} (log_step "A" ["A"])
              "reached" (running_instance 10 ""))
    as (w' & Hloop & _ & Hlen);
    [reflexivity|reflexivity|reflexivity|reflexivity|discriminate|reflexivity
    |reflexivity|reflexivity|].
  by exists w'.
Defined.

(** ** Pagination *)

Lemma int_wrap_small z : (- 2 ^ 63 ≤ z < 2 ^ 63)%Z → int_wrap z = z.
Proof. intros Hz. unfold int_wrap. rewrite Z.mod_small; lia. Qed.

Lemma ListPage_pageSize {A} (rows : list A) page pageSize :
  (1 ≤ resp_PageSize (ListPage rows page pageSize) ≤ 100)%Z.
Proof.
  simpl. destruct (Z.ltb_spec pageSize 1); simpl; [lia|].
  destruct (Z.ltb_spec 100 pageSize); lia.
Qed.

Lemma ListPage_totalPages {A} (rows : list A) page pageSize :
  (Z.of_nat (length rows) < 2 ^ 62)%Z →
  resp_TotalPages (ListPage rows page pageSize)
  = ((Z.of_nat (length rows) + resp_PageSize (ListPage rows page pageSize) - 1)
     / resp_PageSize (ListPage rows page pageSize))%Z.
Proof.
  intros Hlen. pose proof (ListPage_pageSize rows page pageSize) as Hps.
  unfold ListPage in *. cbv zeta in *. cbn [resp_TotalPages resp_PageSize] in *.
  set (ps := if _ : bool then 20%Z else pageSize) in *.
  rewrite (int_wrap_small (Z.of_nat (length rows) + ps - 1)) by lia.
  rewrite Z.quot_div_nonneg by lia.
  apply int_wrap_small.
  assert (0 ≤ (Z.of_nat (length rows) + ps - 1) / ps
          ≤ Z.of_nat (length rows) + ps - 1)%Z; [|lia].
  split; [apply Z.div_pos; lia|]. apply Z.div_le_upper_bound; nia.
Qed.

Lemma ListPage_pages_hold_rows {A} (rows : list A) page pageSize :
  (Z.of_nat (length rows) < 2 ^ 62)%Z →
  let r := ListPage rows page pageSize in
  ((resp_TotalPages r - 1) * resp_PageSize r < Z.of_nat (length rows)
   ≤ resp_TotalPages r * resp_PageSize r)%Z.
Proof.
  intros Hlen r.
  pose proof (ListPage_pageSize rows page pageSize) as Hps.
  pose proof (ListPage_totalPages rows page pageSize Hlen) as Htp.
  fold r in Hps, Htp. rewrite Htp.
  set (ps := resp_PageSize r) in *. set (t := Z.of_nat (length rows)) in *.
  pose proof (Z.div_mod (t + ps - 1) ps ltac:(lia)) as Hdm.
  pose proof (Z.mod_pos_bound (t + ps - 1) ps ltac:(lia)) as Hmod.
  nia.
Qed.

(** X28. What a list request answers, whatever page and page size are asked
    for: the page is at least 1, the page size is between 1 and 100 (20 when
    the request is outside), no more rows than the page size are returned,
    and the number of pages is the least one whose pages hold all the rows
    (0 when there is none). *)
Theorem ListPage_bounds {A} (rows : list A) page pageSize :
  (Z.of_nat (length rows) < 2 ^ 62)%Z →
  let r := ListPage rows page pageSize in
  (1 ≤ resp_Page r)%Z ∧
  (1 ≤ resp_PageSize r ≤ 100)%Z ∧
  (pageSize < 1 ∨ 100 < pageSize → resp_PageSize r = 20)%Z ∧
  (Z.of_nat (length (resp_Data r)) ≤ resp_PageSize r)%Z ∧
  resp_Total r = Z.of_nat (length rows) ∧
  ((resp_TotalPages r - 1) * resp_PageSize r < resp_Total r
   ≤ resp_TotalPages r * resp_PageSize r)%Z.
Proof.
  intros Hlen r.
  pose proof (ListPage_pageSize rows page pageSize) as Hps.
  fold r in Hps.
  split; [simpl; destruct (Z.ltb_spec page 1); lia|].
  split; [done|]. split.
  { simpl. intros [H|H].
    - by destruct (Z.ltb_spec pageSize 1); [|lia].
    - destruct (Z.ltb_spec pageSize 1); [done|]. simpl.
      by destruct (Z.ltb_spec 100 pageSize); [|lia]. }
  split.
  { change (resp_Data r)
      with (take (Z.to_nat (resp_PageSize r))
              (drop (Z.to_nat (int_wrap ((resp_Page r - 1) * resp_PageSize r)))
                 rows)).
    rewrite length_take. lia. }
  split; [done|].
  change (resp_Total r) with (Z.of_nat (length rows)).
  by apply ListPage_pages_hold_rows.
Qed.

Lemma ListPage_bounds_witness :
  let r := ListPage [1; 2; 3; 4; 5]%nat 2 0 in
  resp_PageSize r = 20%Z ∧ resp_TotalPages r = 1%Z ∧ resp_Data r = [].
Proof.
  intros r.
  destruct (ListPage_bounds [1; 2; 3; 4; 5]%nat 2 0) as (_ & _ & Hps & _);
    [simpl; lia|].
  split; [apply Hps; lia|]. by split.
Defined.

Lemma chunks_cover {A} (n k : nat) (rows : list A) :
  (0 < n)%nat → (length rows ≤ k * n)%nat →
  concat ((λ p, take n (drop (p * n) rows)) <$> seq 0 k) = rows.
Proof.
  intros Hn. revert rows. induction k as [|k IH]; intros rows Hlen.
  - destruct rows; [done|simpl in Hlen; lia].
  - cbn [seq fmap list_fmap concat]. rewrite <- fmap_S_seq, <- list_fmap_compose.
    transitivity (take n rows ++ drop n rows)%list; [|apply take_drop].
    f_equal.
    etrans; [|apply (IH (drop n rows)); rewrite length_drop; lia].
    f_equal. apply list_fmap_ext. intros i p _. simpl.
    by rewrite drop_drop, (Nat.add_comm n).
Qed.

(** X29. Walking the pages returns every row once: for the page size of a
    request (20 when it is outside 1 to 100), the data of the pages 1 to
    [TotalPages], one after the other, are the rows of the query, in their
    order. *)
Theorem pages_cover_rows {A} (rows : list A) pageSize :
  (Z.of_nat (length rows) < 2 ^ 62)%Z →
  let totalPages := resp_TotalPages (ListPage rows 1 pageSize) in
  concat ((λ p : nat, resp_Data (ListPage rows (Z.of_nat p) pageSize))
            <$> seq 1 (Z.to_nat totalPages)) = rows.
Proof.
  intros Hlen totalPages.
  pose proof (ListPage_pageSize rows 1 pageSize) as Hps.
  pose proof (ListPage_pages_hold_rows rows 1 pageSize Hlen) as Htp.
  cbv zeta in Htp. fold totalPages in Htp.
  set (ps := resp_PageSize (ListPage rows 1 pageSize)) in *.
  rewrite <- fmap_S_seq, <- list_fmap_compose.
  etrans; [|apply (chunks_cover (Z.to_nat ps) (Z.to_nat totalPages) rows); nia].
  f_equal. apply list_fmap_ext. intros i p Hp. simpl.
  apply lookup_seq in Hp as [-> Hp]. simpl in Hp.
  change (if (pageSize <? 1)%Z || (100 <? pageSize)%Z then 20%Z else pageSize)
    with ps.
  destruct (Z.ltb_spec (Z.of_nat (S (0 + i))) 1) as [?|_]; [lia|].
  assert (Hi : (0 ≤ Z.of_nat i ≤ totalPages - 1)%Z) by lia.
  rewrite int_wrap_small by nia.
  f_equal. f_equal. nia.
Qed.

Lemma pages_cover_rows_witness :
  concat ((λ p : nat, resp_Data (ListPage [1; 2; 3; 4; 5]%nat (Z.of_nat p) 2))
            <$> seq 1 3) = [1; 2; 3; 4; 5]%nat.
Proof.
  apply (pages_cover_rows [1; 2; 3; 4; 5]%nat 2). simpl. lia.
Defined.

Lemma determineNextStep_in_next_steps_witness :
  (determineNextStep (log_step "A" ["B"; "C"])
     {| Success := false; Data := ∅; Error := "" |}).1 = "B".
Proof.
  destruct (determineNextStep_in_next_steps (log_step "A" ["B"; "C"])
              {| Success := false; Data := ∅; Error := "" |})
    as (_ & _ & Hfirst).
  apply Hfirst. left. discriminate.
Defined.
